(** * Rocket state service: the aggregation engine, the store and the listing

    A shallow embedding of [internal/rocket] (service.go, store.go and the
    data model) together with the part of Go's [sort] and [strings]
    packages the listing goes through. *)

From Stdlib Require Import ZArith String Ascii List Bool Lia.
From stdpp Require Import base option list gmap strings pretty sorting.

Local Open Scope Z_scope.

(** ** Go's [int64]

    [CurrentSpeed], [MessageNumber] and the payload amounts are [int64];
    [+=] and [-=] wrap around in two's complement. *)

Definition int64_min : Z := - 2 ^ 63.
Definition int64_max : Z := 2 ^ 63 - 1.

Definition wrap64 (z : Z) : Z := (z + 2 ^ 63) mod 2 ^ 64 - 2 ^ 63.

Definition in_int64 (z : Z) : Prop := int64_min <= z <= int64_max.

(** ** Go's standard library

    Two pieces of the standard library are taken as given.  [strings.ToLower]
    hands a string with a byte outside ASCII to [strings.Map(unicode.ToLower, s)],
    which goes through the Unicode tables.  The generator [xorshift.Next] of
    package [sort] has had different shift constants in different releases. *)

Class GoStd := {
  (** [strings.Map(unicode.ToLower, s)] *)
  Map_unicode_ToLower : string -> string;
  (** [xorshift.Next]: the next state, which is also the value returned *)
  xorshift_Next : N -> N
}.

(** ** Package [strings] *)

Module strings.

Definition isUpper (c : ascii) : bool :=
  (65 <=? N_of_ascii c)%N && (N_of_ascii c <=? 90)%N.

(** [c += 'a' - 'A'] on an upper-case byte *)
Definition lowerByte (c : ascii) : ascii :=
  if isUpper c then ascii_of_N (N_of_ascii c + 32) else c.

(** [c >= utf8.RuneSelf] *)
Definition isASCII (s : string) : bool :=
  forallb (fun c => (N_of_ascii c <? 128)%N) (list_ascii_of_string s).

Definition hasUpper (s : string) : bool :=
  existsb isUpper (list_ascii_of_string s).

Definition ToLower `{GoStd} (s : string) : string :=
  if isASCII s then
    if negb (hasUpper s) then s
    else string_of_list_ascii (map lowerByte (list_ascii_of_string s))
  else Map_unicode_ToLower s.

End strings.

(** ** Package [sort]: [sort.Slice]

    [sort.Slice(x, less)] runs the pattern-defeating quicksort of
    zsortfunc.go on [lessSwap{less, swap}], where [swap] exchanges two
    elements of [x] and [less] is the caller's closure.  The closure
    reads the slice as it is when called, so [Less] takes the current
    contents; a call that panics (an index out of range) is [None]. *)

Module sort.

Local Open Scope nat_scope.

Inductive sortedHint : Set :=
| unknownHint
| increasingHint
| decreasingHint.

(** [hint == h] *)
Definition sortedHint_eqb (h1 h2 : sortedHint) : bool :=
  match h1, h2 with
  | unknownHint, unknownHint => true
  | increasingHint, increasingHint => true
  | decreasingHint, decreasingHint => true
  | _, _ => false
  end.

(** Loops.  [loop] runs a body that either goes on with a new state or
    leaves with a result; the fuel bounds the number of rounds, and a loop
    that would need more is [None].  [for_each] runs a body over the
    values of a counter. *)
Inductive step (St Res : Type) : Type :=
| Continue (s : St)
| Break (r : Res).

Global Arguments Continue {St Res} s.
Global Arguments Break {St Res} r.

Fixpoint loop {St Res : Type} (fuel : nat) (body : St -> option (step St Res))
    (s : St) : option Res :=
  match fuel with
  | O => None
  | S fuel' =>
      match body s with
      | None => None
      | Some (Break r) => Some r
      | Some (Continue s') => loop fuel' body s'
      end
  end.

Fixpoint for_each {St : Type} (counter : list nat)
    (body : nat -> St -> option St) (s : St) : option St :=
  match counter with
  | [] => Some s
  | i :: counter' =>
      match body i s with
      | None => None
      | Some s' => for_each counter' body s'
      end
  end.

(** [bits.Len] *)
Definition bits_Len (n : nat) : nat :=
  match n with
  | O => O
  | _ => S (Nat.log2 n)
  end.

Definition nextPowerOfTwo (length : nat) : N :=
  N.shiftl 1 (N.of_nat (bits_Len length)).

Section lessSwap.

Context `{GoStd} {A : Type}.

Variable Less : list A -> nat -> nat -> option bool.

(** [reflect.Swapper]: exchanges [data[i]] and [data[j]], panics out of range. *)
Definition Swap (data : list A) (i j : nat) : option (list A) :=
  x ← data !! i; y ← data !! j; Some (<[j := x]> (<[i := y]> data)).

Definition insertionSort_func (a b : nat) (data : list A) : option (list A) :=
  for_each (seq (a + 1) (b - (a + 1))) (fun i data =>
    loop (S (length data)) (fun '(j, data) =>
      if a <? j then
        lt ← Less data j (j - 1);
        if lt : bool then
          data ← Swap data j (j - 1); Some (Continue (j - 1, data))
        else Some (Break data)
      else Some (Break data)) (i, data)) data.

Definition siftDown_func (lo hi first : nat) (data : list A) : option (list A) :=
  loop (S (length data)) (fun '(root, data) =>
    let child := 2 * root + 1 in
    if hi <=? child then Some (Break data)
    else
      child ← (if child + 1 <? hi then
                 lt ← Less data (first + child) (first + child + 1);
                 Some (if lt : bool then child + 1 else child)
               else Some child);
      lt ← Less data (first + root) (first + child);
      if negb lt then Some (Break data)
      else
        data ← Swap data (first + root) (first + child);
        Some (Continue (child, data))) (lo, data).

Definition heapSort_func (a b : nat) (data : list A) : option (list A) :=
  let first := a in
  let lo := 0 in
  let hi := b - a in
  data ← for_each (rev (seq 0 ((hi - 1) / 2 + 1)))
           (fun i data => siftDown_func i hi first data) data;
  for_each (rev (seq 0 hi))
    (fun i data =>
       data ← Swap data first (first + i); siftDown_func lo i first data) data.

(** [for i <= j && data.Less(i, a) { i++ }] *)
Definition scan_less (data : list A) (a j i : nat) : option nat :=
  loop (S (length data)) (fun i =>
    if i <=? j then
      lt ← Less data i a; Some (if lt : bool then Continue (i + 1) else Break i)
    else Some (Break i)) i.

(** [for i <= j && !data.Less(j, a) { j-- }] *)
Definition scan_not_less (data : list A) (a i j : nat) : option nat :=
  loop (S (length data)) (fun j =>
    if i <=? j then
      lt ← Less data j a; Some (if lt : bool then Break j else Continue (j - 1))
    else Some (Break j)) j.

Definition partition_func (a b pivot : nat) (data : list A)
  : option (nat * bool * list A) :=
  data ← Swap data a pivot;
  let i := a + 1 in
  let j := b - 1 in
  i ← scan_less data a j i;
  j ← scan_not_less data a i j;
  if j <? i then
    data ← Swap data j a; Some (j, true, data)
  else
    data ← Swap data i j;
    let i := i + 1 in
    let j := j - 1 in
    r ← loop (S (length data)) (fun '(i, j, data) =>
           i ← scan_less data a j i;
           j ← scan_not_less data a i j;
           if j <? i then Some (Break (j, data))
           else
             data ← Swap data i j;
             Some (Continue (i + 1, j - 1, data))) (i, j, data);
    let '(j, data) := r in
    data ← Swap data j a;
    Some (j, false, data).

(** [for i <= j && !data.Less(a, i) { i++ }] *)
Definition scan_not_greater (data : list A) (a j i : nat) : option nat :=
  loop (S (length data)) (fun i =>
    if i <=? j then
      lt ← Less data a i; Some (if lt : bool then Break i else Continue (i + 1))
    else Some (Break i)) i.

(** [for i <= j && data.Less(a, j) { j-- }] *)
Definition scan_greater (data : list A) (a i j : nat) : option nat :=
  loop (S (length data)) (fun j =>
    if i <=? j then
      lt ← Less data a j; Some (if lt : bool then Continue (j - 1) else Break j)
    else Some (Break j)) j.

Definition partitionEqual_func (a b pivot : nat) (data : list A)
  : option (nat * list A) :=
  data ← Swap data a pivot;
  let i := a + 1 in
  let j := b - 1 in
  loop (S (length data)) (fun '(i, j, data) =>
    i ← scan_not_greater data a j i;
    j ← scan_greater data a i j;
    if j <? i then Some (Break (i, data))
    else
      data ← Swap data i j;
      Some (Continue (i + 1, j - 1, data))) (i, j, data).

(** [for j := from; lo <= j && j < hi; j += dir { if !data.Less(j, j-1) { break }; data.Swap(j, j-1) }],
    downwards ([j--], with [j >= 1]) or upwards ([j++], with [j < b]). *)
Definition shift_left (data : list A) (from : nat) : option (list A) :=
  loop (S (length data)) (fun '(j, data) =>
    if 1 <=? j then
      lt ← Less data j (j - 1);
      if negb lt then Some (Break data)
      else data ← Swap data j (j - 1); Some (Continue (j - 1, data))
    else Some (Break data)) (from, data).

Definition shift_right (data : list A) (from b : nat) : option (list A) :=
  loop (S (length data)) (fun '(j, data) =>
    if j <? b then
      lt ← Less data j (j - 1);
      if negb lt then Some (Break data)
      else data ← Swap data j (j - 1); Some (Continue (j + 1, data))
    else Some (Break data)) (from, data).

(** [for i < b && !data.Less(i, i-1) { i++ }] *)
Definition scan_ordered (data : list A) (b i : nat) : option nat :=
  loop (S (length data)) (fun i =>
    if i <? b then
      lt ← Less data i (i - 1); Some (if lt : bool then Break i else Continue (i + 1))
    else Some (Break i)) i.

Definition partialInsertionSort_func (a b : nat) (data : list A)
  : option (bool * list A) :=
  let maxSteps := 5 in
  let shortestShifting := 50 in
  loop (S maxSteps) (fun '(j, i, data) =>
    if j <? maxSteps then
      i ← scan_ordered data b i;
      if i =? b then Some (Break (true, data))
      else if b - a <? shortestShifting then Some (Break (false, data))
      else
        data ← Swap data i (i - 1);
        data ← (if 2 <=? i - a then shift_left data (i - 1) else Some data);
        data ← (if 2 <=? b - i then shift_right data (i + 1) b else Some data);
        Some (Continue (j + 1, i, data))
    else Some (Break (false, data))) (0, a + 1, data).

Definition breakPatterns_func (a b : nat) (data : list A) : option (list A) :=
  let length := b - a in
  if 8 <=? length then
    let random := N.of_nat length in
    let modulus := nextPowerOfTwo length in
    let idx := a + (length / 4) * 2 - 1 in
    r ← for_each [0; 1; 2] (fun i '(random, data) =>
          let random := xorshift_Next random in
          let other := N.to_nat (N.land random (modulus - 1)) in
          let other := if length <=? other then other - length else other in
          data ← Swap data (idx - 1 + i) (a + other);
          Some (random, data)) (random, data);
    Some (snd r)
  else Some data.

(** [order2_func]: the two indices in order, and the swap count. *)
Definition order2_func (data : list A) (a b swaps : nat)
  : option (nat * nat * nat) :=
  lt ← Less data b a;
  Some (if lt : bool then (b, a, swaps + 1) else (a, b, swaps)).

Definition median_func (data : list A) (a b c swaps : nat)
  : option (nat * nat) :=
  r ← order2_func data a b swaps; let '(a, b, swaps) := r in
  r ← order2_func data b c swaps; let '(b, c, swaps) := r in
  r ← order2_func data a b swaps; let '(a, b, swaps) := r in
  Some (b, swaps).

Definition medianAdjacent_func (data : list A) (a swaps : nat)
  : option (nat * nat) :=
  median_func data (a - 1) a (a + 1) swaps.

Definition choosePivot_func (a b : nat) (data : list A)
  : option (nat * sortedHint) :=
  let shortestNinther := 50 in
  let maxSwaps := 4 * 3 in
  let l := b - a in
  let swaps := 0 in
  let i := a + l / 4 * 1 in
  let j := a + l / 4 * 2 in
  let k := a + l / 4 * 3 in
  r ← (if 8 <=? l then
         r ← (if shortestNinther <=? l then
                r ← medianAdjacent_func data i swaps; let '(i, swaps) := r in
                r ← medianAdjacent_func data j swaps; let '(j, swaps) := r in
                r ← medianAdjacent_func data k swaps; let '(k, swaps) := r in
                Some (i, j, k, swaps)
              else Some (i, j, k, swaps));
         let '(i, j, k, swaps) := r in
         median_func data i j k swaps
       else Some (j, swaps));
  let '(j, swaps) := r in
  Some (j, if swaps =? 0 then increasingHint
           else if swaps =? maxSwaps then decreasingHint
           else unknownHint).

Definition reverseRange_func (a b : nat) (data : list A) : option (list A) :=
  loop (S (length data)) (fun '(i, j, data) =>
    if i <? j then
      data ← Swap data i j; Some (Continue (i + 1, j - 1, data))
    else Some (Break data)) (a, b - 1, data).

(** [pdqsort_func].  One round of its [for] loop is one unfolding; the
    round that follows and the recursive call on the shorter side are the
    two calls below.  [wasBalanced] and [wasPartitioned] are the loop's
    variables, [true] on entry. *)
Fixpoint pdqsort_func (fuel : nat) (a b limit : nat)
    (wasBalanced wasPartitioned : bool) (data : list A) : option (list A) :=
  match fuel with
  | O => None
  | S fuel' =>
      let maxInsertion := 12 in
      let length := b - a in
      if length <=? maxInsertion then insertionSort_func a b data
      else if limit =? 0 then heapSort_func a b data
      else
        r ← (if negb wasBalanced then
               data ← breakPatterns_func a b data; Some (data, limit - 1)
             else Some (data, limit));
        let '(data, limit) := r in
        r ← choosePivot_func a b data;
        let '(pivot, hint) := r in
        r ← (if sortedHint_eqb hint decreasingHint then
               data ← reverseRange_func a b data;
               Some (data, (b - 1) - (pivot - a), increasingHint)
             else Some (data, pivot, hint));
        let '(data, pivot, hint) := r in
        r ← (if wasBalanced && wasPartitioned
                && sortedHint_eqb hint increasingHint
             then partialInsertionSort_func a b data
             else Some (false, data));
        let '(sorted, data) := r in
        if sorted : bool then Some data
        else
          equal ← (if 0 <? a then
                     lt ← Less data (a - 1) pivot; Some (negb lt)
                   else Some false);
          if equal : bool then
            r ← partitionEqual_func a b pivot data;
            let '(mid, data) := r in
            pdqsort_func fuel' mid b limit wasBalanced wasPartitioned data
          else
            r ← partition_func a b pivot data;
            let '(mid, alreadyPartitioned, data) := r in
            let wasPartitioned := alreadyPartitioned in
            let leftLen := mid - a in
            let rightLen := b - mid in
            let balanceThreshold := length / 8 in
            if leftLen <? rightLen then
              let wasBalanced := balanceThreshold <=? leftLen in
              data ← pdqsort_func fuel' a mid limit true true data;
              pdqsort_func fuel' (mid + 1) b limit wasBalanced wasPartitioned data
            else
              let wasBalanced := balanceThreshold <=? rightLen in
              data ← pdqsort_func fuel' (mid + 1) b limit true true data;
              pdqsort_func fuel' a mid limit wasBalanced wasPartitioned data
  end.

(** [sort.Slice] *)
Definition Slice (x : list A) : option (list A) :=
  let length := length x in
  let limit := bits_Len length in
  pdqsort_func (S length) 0 length limit true true x.

End lessSwap.

(** A closure that compares the two elements it is pointed at:
    [less = func(i, j int) bool { return R(x[i], x[j]) }]. *)
Definition Less_by {A : Type} (R : A -> A -> bool) (data : list A) (i j : nat)
  : option bool :=
  x ← data !! i; y ← data !! j; Some (R x y).

(** ** What the proofs say about a slice

    Shuffles inside a range (what a run of in-range swaps does), and the
    properties of a range the sort's steps establish. *)

Section Ranges.

Context {A : Type}.

Inductive shuffled (a b : nat) : list A -> list A -> Prop :=
| shuffled_refl data : shuffled a b data data
| shuffled_swap data i j data' data'' :
    a <= i < b -> a <= j < b ->
    Swap data i j = Some data' ->
    shuffled a b data' data'' ->
    shuffled a b data data''.

(** Every element of the range has a property. *)
Definition range_all (P : A -> Prop) (a b : nat) (data : list A) : Prop :=
  forall i x, a <= i < b -> data !! i = Some x -> P x.

(** The comparison [R] behind a closure, and the order [le] a result is
    sorted by. *)
Variable R : A -> A -> bool.
Variable le : A -> A -> Prop.

Definition range_sorted (a b : nat) (data : list A) : Prop :=
  forall i j x y, a <= i -> i < j -> j < b ->
    data !! i = Some x -> data !! j = Some y -> le x y.

(** The state between two rounds of the partition: the pivot sits at [a],
    the elements before [i] are less than it and those after [j] are not. *)
Definition partition_inv (data0 : list A) (a b : nat) (p : A)
    (i j : nat) (d : list A) : Prop :=
  shuffled a b data0 d /\ d !! a = Some p /\ a + 1 <= i <= j + 1 /\ j < b
  /\ b <= length d
  /\ range_all (fun x => R x p = true) (a + 1) i d
  /\ range_all (fun x => R x p = false) (j + 1) b d.

(** No element of the range is less than the element left of it. *)
Definition left_guard (a b : nat) (d : list A) : Prop :=
  forall e, 0 < a -> d !! (a - 1) = Some e ->
    range_all (fun x => R x e = false) a b d.

Definition parent (c : nat) : nat := (c - 1) / 2.

(** Every node of the heap [data[first : first+hi]] whose parent is [lo]
    or later is no greater than its parent. *)
Definition heap_from (first lo hi : nat) (d : list A) : Prop :=
  forall c x y, 0 < c -> c < hi -> lo <= parent c ->
    d !! (first + c) = Some x -> d !! (first + parent c) = Some y -> le x y.

End Ranges.

End sort.

(** ** Library types

    [uuid.UUID] (github.com/google/uuid) and [time.Time] are library types.
    The development takes them as interfaces, with the operations and the
    zero values the code uses. *)

Class UUIDLib := {
  UUID : Type;
  UUID_eq_dec :: EqDecision UUID;
  UUID_countable :: Countable UUID;
  (** [uuid.Nil], the zero value *)
  UUID_Nil : UUID;
  (** [UUID.String] *)
  UUID_String : UUID -> string
}.

Class TimeLib := {
  Time : Type;
  (** the zero [time.Time] *)
  Time_zero : Time;
  (** [Time.Before] *)
  Time_Before : Time -> Time -> bool
}.

(** ** The data model (package [rocket]) *)

Section Rocket.

Context `{UUIDLib} `{TimeLib}.

Definition Status := string.
Definition StatusLaunched : Status := "LAUNCHED".
Definition StatusExploded : Status := "EXPLODED".

Definition MessageType := string.
Definition MessageTypeExploded : MessageType := "RocketExploded".
Definition MessageTypeLaunched : MessageType := "RocketLaunched".
Definition MessageTypeMissionChanged : MessageType := "RocketMissionChanged".
Definition MessageTypeSpeedDecreased : MessageType := "RocketSpeedDecreased".
Definition MessageTypeSpeedIncreased : MessageType := "RocketSpeedIncreased".

(** [State]; the Go field [Type] is [Type_] here ([Status] is [Status_], the
    type keeps the name), and the pointer [Reason *string] is an [option]. *)
Record State := mkState {
  ID : UUID;
  Type_ : string;
  CurrentSpeed : Z;
  Mission : string;
  Status_ : Status;
  Reason : option string;
  LastUpdateTime : Time;
  LastProcessedMessageNumber : Z
}.

Record MessageMetadata := mkMessageMetadata {
  Channel : UUID;
  MessageNumber : Z;
  MessageTime : Time;
  MessageType_ : MessageType
}.

(** [Message]: every field is a pointer, [None] is [nil].  The fields
    [Mission], [Reason] and [Type] carry the prefix [msg] to keep them
    apart from those of [State]. *)
Record Message := mkMessage {
  By : option Z;
  LaunchSpeed : option Z;
  msgMission : option string;
  NewMission : option string;
  msgReason : option string;
  msgType : option string
}.

Record TelemetryMessage := mkTelemetryMessage {
  Metadata : MessageMetadata;
  Message_ : Message
}.

(** The zero value of [State], what a map read of a missing key returns. *)
Definition State_zero : State :=
  mkState UUID_Nil "" 0 "" "" None Time_zero 0.

(** Field assignments [s.F = v]. *)
Definition set_Type (v : string) (s : State) : State :=
  mkState (ID s) v (CurrentSpeed s) (Mission s) (Status_ s) (Reason s)
          (LastUpdateTime s) (LastProcessedMessageNumber s).

Definition set_CurrentSpeed (v : Z) (s : State) : State :=
  mkState (ID s) (Type_ s) v (Mission s) (Status_ s) (Reason s)
          (LastUpdateTime s) (LastProcessedMessageNumber s).

Definition set_Mission (v : string) (s : State) : State :=
  mkState (ID s) (Type_ s) (CurrentSpeed s) v (Status_ s) (Reason s)
          (LastUpdateTime s) (LastProcessedMessageNumber s).

Definition set_Status (v : Status) (s : State) : State :=
  mkState (ID s) (Type_ s) (CurrentSpeed s) (Mission s) v (Reason s)
          (LastUpdateTime s) (LastProcessedMessageNumber s).

Definition set_Reason (v : option string) (s : State) : State :=
  mkState (ID s) (Type_ s) (CurrentSpeed s) (Mission s) (Status_ s) v
          (LastUpdateTime s) (LastProcessedMessageNumber s).

Definition set_LastUpdateTime (v : Time) (s : State) : State :=
  mkState (ID s) (Type_ s) (CurrentSpeed s) (Mission s) (Status_ s) (Reason s)
          v (LastProcessedMessageNumber s).

Definition set_LastProcessedMessageNumber (v : Z) (s : State) : State :=
  mkState (ID s) (Type_ s) (CurrentSpeed s) (Mission s) (Status_ s) (Reason s)
          (LastUpdateTime s) v.

(** ** The store (store.go)

    [InMemoryRocketStore.rockets] is a [map[uuid.UUID]State]; the mutex
    makes each call atomic, so a call is a function on the map. *)

Definition NewInMemoryRocketStore : gmap UUID State := ∅.

Definition store_SaveRocket (state : State) (s : gmap UUID State)
  : gmap UUID State :=
  <[ID state := state]> s.

Definition store_GetRocketByID (id : UUID) (s : gmap UUID State)
  : State * bool :=
  match s !! id with
  | Some rocket => (rocket, true)
  | None => (State_zero, false)
  end.

(** [ListAllRockets] ranges over the map, whose iteration order Go leaves
    unspecified: any arrangement of the stored values is a possible
    snapshot. *)
Definition store_ListAllRockets (s : gmap UUID State)
    (states : list State) : Prop :=
  states ≡ₚ (map_to_list s).*2.

(** ** The service monad

    A service call runs against the store and may panic (a nil pointer is
    dereferenced, an index is out of range).  The world a panic leaves
    behind is the world at the moment of the panic.  Besides the store the
    world keeps, as a ghost log, every state handed to [SaveRocket]. *)

Record world := mkWorld {
  rockets : gmap UUID State;
  saved : list State
}.

Inductive result (A : Type) : Type :=
| Ok (a : A)
| Panic.

Global Arguments Ok {A} a.
Global Arguments Panic {A}.

Definition M (A : Type) : Type := world -> result A * world.

Definition ret {A} (a : A) : M A := fun w => (Ok a, w).

Definition bind {A B} (m : M A) (k : A -> M B) : M B :=
  fun w => match m w with
           | (Ok a, w') => k a w'
           | (Panic, w') => (Panic, w')
           end.

Definition panic {A} : M A := fun w => (Panic, w).

Notation "'do' x <- m ; k" := (bind m (fun x => k))
  (at level 10, x name, m at level 100, k at level 200).
Notation "'run' m ; k" := (bind m (fun _ => k))
  (at level 10, m at level 100, k at level 200).

(** [*p] *)
Definition deref {A} (p : option A) : M A :=
  match p with
  | Some a => ret a
  | None => panic
  end.

Definition SaveRocket (state : State) : M unit :=
  fun w => (Ok tt, mkWorld (store_SaveRocket state (rockets w))
                           (saved w ++ [state])).

Definition GetRocketByID (id : UUID) : M (State * bool) :=
  fun w => (Ok (store_GetRocketByID id (rockets w)), w).

(** ** ProcessMessage (service.go)

    The logger calls are left out: they read the message and the state
    and change neither.  The result is the returned [error]; [None] is
    [nil]. *)

Definition error := string.

(** The [switch msg.Metadata.MessageType]. *)
Definition applyMessageType (msg : TelemetryMessage) (newState : State)
  : M State :=
  let ty := MessageType_ (Metadata msg) in
  if decide (ty = MessageTypeLaunched) then
    do t <- deref (msgType (Message_ msg)) ;
    let newState := set_Type t newState in
    do v <- deref (LaunchSpeed (Message_ msg)) ;
    let newState := set_CurrentSpeed v newState in
    do m <- deref (msgMission (Message_ msg)) ;
    let newState := set_Mission m newState in
    ret (set_Status StatusLaunched newState)
  else if decide (ty = MessageTypeSpeedIncreased) then
    do d <- deref (By (Message_ msg)) ;
    ret (set_CurrentSpeed (wrap64 (CurrentSpeed newState + d)) newState)
  else if decide (ty = MessageTypeSpeedDecreased) then
    do d <- deref (By (Message_ msg)) ;
    ret (set_CurrentSpeed (wrap64 (CurrentSpeed newState - d)) newState)
  else if decide (ty = MessageTypeExploded) then
    let newState := set_CurrentSpeed 0 newState in
    let newState := set_Status StatusExploded newState in
    ret (set_Reason (msgReason (Message_ msg)) newState)
  else if decide (ty = MessageTypeMissionChanged) then
    do m <- deref (NewMission (Message_ msg)) ;
    ret (set_Mission m newState)
  else ret newState.

Definition ProcessMessage (msg : TelemetryMessage) : M (option error) :=
  let rocketID := Channel (Metadata msg) in
  do r <- GetRocketByID rocketID ;
  let '(currentState, exists_) := r in
  if exists_ && (MessageNumber (Metadata msg)
                 <=? LastProcessedMessageNumber currentState)
  then ret None
  else
    let newState := currentState in
    let newState :=
      if negb exists_
      then mkState rocketID "" 0 "" "UNKNOWN" None Time_zero 0
      else newState in
    let newState :=
      set_LastProcessedMessageNumber (MessageNumber (Metadata msg)) newState in
    let newState :=
      set_LastUpdateTime (MessageTime (Metadata msg)) newState in
    do newState <- applyMessageType msg newState ;
    run SaveRocket newState ;
    ret None.

(** [GetRocketState] *)
Definition GetRocketState (id : UUID) : M (State * bool) :=
  GetRocketByID id.

(** ** ListAllRockets (service.go)

    The closure handed to [sort.Slice].  It reads [rockets], the slice
    being sorted.  In the [default] case it returns [i < j] at once;
    otherwise [less] goes through the [desc] test. *)
Definition ListAllRockets_less `{GoStd} (sortBy sortOrder : string)
    (rockets : list State) (i j : nat) : option bool :=
  let key := strings.ToLower sortBy in
  let by_field (R : State -> State -> bool) : option (bool + bool) :=
    ri ← rockets !! i; rj ← rockets !! j; Some (inr (R ri rj)) in
  r ← (if decide (key = "id") then
         by_field (fun ri rj =>
                     String.ltb (UUID_String (ID ri)) (UUID_String (ID rj)))
       else if decide (key = "type") then
         by_field (fun ri rj => String.ltb (Type_ ri) (Type_ rj))
       else if decide (key = "speed") then
         by_field (fun ri rj => CurrentSpeed ri <? CurrentSpeed rj)
       else if decide (key = "mission") then
         by_field (fun ri rj => String.ltb (Mission ri) (Mission rj))
       else if decide (key = "lastupdatetime") then
         by_field (fun ri rj =>
                     Time_Before (LastUpdateTime ri) (LastUpdateTime rj))
       else Some (inl (i <? j)%nat));
  match r with
  | inl returned => Some returned
  | inr less =>
      if decide (strings.ToLower sortOrder = "desc") then Some (negb less)
      else Some less
  end.

(** The method from the snapshot on: [rockets] is what
    [s.store.ListAllRockets()] returned. *)
Definition ListAllRockets_from `{GoStd} (rockets : list State)
    (sortBy sortOrder : string) : result (list State) :=
  if decide (sortBy = "") then Ok rockets
  else
    match sort.Slice (ListAllRockets_less sortBy sortOrder) rockets with
    | Some rockets => Ok rockets
    | None => Panic
    end.

(** [ListAllRockets]: some snapshot of the store, then the above. *)
Definition ListAllRockets `{GoStd} (sortBy sortOrder : string) (w : world)
    (r : result (list State)) : Prop :=
  exists snapshot,
    store_ListAllRockets (rockets w) snapshot /\
    r = ListAllRockets_from snapshot sortBy sortOrder.

(** The sort fields the closure knows, in lower case. *)
Definition sortable (key : string) : Prop :=
  key = "id" \/ key = "type" \/ key = "speed" \/ key = "mission"
  \/ key = "lastupdatetime".

(** ** Runs of calls

    The world after one call, and the worlds after each call of a list of
    messages delivered one after the other. *)

Definition after (msg : TelemetryMessage) (w : world) : world :=
  snd (ProcessMessage msg w).

Fixpoint trace (w : world) (msgs : list TelemetryMessage) : list world :=
  match msgs with
  | [] => []
  | msg :: msgs' => after msg w :: trace (after msg w) msgs'
  end.

(** The stored [lastSequence] of an entity, when it has a state. *)
Definition lastSequence (id : UUID) (w : world) : option Z :=
  LastProcessedMessageNumber <$> rockets w !! id.

(** The sequencing check of line 50: the event is a duplicate or stale. *)
Definition dropped (msg : TelemetryMessage) (w : world) : bool :=
  match rockets w !! Channel (Metadata msg) with
  | Some currentState =>
      MessageNumber (Metadata msg) <=? LastProcessedMessageNumber currentState
  | None => false
  end.

(** The sequence numbers of the events of a run that were not dropped. *)
Fixpoint not_dropped (w : world) (msgs : list TelemetryMessage) : list Z :=
  match msgs with
  | [] => []
  | msg :: msgs' =>
      (if dropped msg w then [] else [MessageNumber (Metadata msg)])
      ++ not_dropped (after msg w) msgs'
  end.

Definition max_list_Z (l : list Z) : option Z :=
  match l with
  | [] => None
  | x :: xs => Some (fold_left Z.max xs x)
  end.

(** The payload fields the event's kind dereferences are present. *)
Definition payload_ok (msg : TelemetryMessage) : bool :=
  let ty := MessageType_ (Metadata msg) in
  let m := Message_ msg in
  if decide (ty = MessageTypeLaunched) then
    bool_decide (is_Some (msgType m)) && bool_decide (is_Some (LaunchSpeed m))
    && bool_decide (is_Some (msgMission m))
  else if decide (ty = MessageTypeSpeedIncreased) then
    bool_decide (is_Some (By m))
  else if decide (ty = MessageTypeSpeedDecreased) then
    bool_decide (is_Some (By m))
  else if decide (ty = MessageTypeExploded) then true
  else if decide (ty = MessageTypeMissionChanged) then
    bool_decide (is_Some (NewMission m))
  else true.

(** An event kind outside the five of the data model. *)
Definition unrecognized (ty : MessageType) : Prop :=
  ty <> MessageTypeLaunched /\ ty <> MessageTypeExploded /\
  ty <> MessageTypeMissionChanged /\ ty <> MessageTypeSpeedIncreased /\
  ty <> MessageTypeSpeedDecreased.

(** Every state sits under its own identifier: [SaveRocket] is the only
    writer of the map and it files a state under [state.ID]. *)
Definition store_wf (s : gmap UUID State) : Prop :=
  forall id st, s !! id = Some st -> ID st = id.

(** The state the switch starts from: the stored state (or the fresh
    [UNKNOWN] one) with the event's sequence number and time. *)
Definition baseState (msg : TelemetryMessage) (w : world) : State :=
  set_LastUpdateTime (MessageTime (Metadata msg))
    (set_LastProcessedMessageNumber (MessageNumber (Metadata msg))
       (match rockets w !! Channel (Metadata msg) with
        | Some currentState => currentState
        | None => mkState (Channel (Metadata msg)) "" 0 "" "UNKNOWN" None
                          Time_zero 0
        end)).

(** The two orders of a listing by speed. *)
Definition by_speed_desc (r1 r2 : State) : Prop :=
  CurrentSpeed r2 <= CurrentSpeed r1.

Definition by_speed_asc (r1 r2 : State) : Prop :=
  CurrentSpeed r1 <= CurrentSpeed r2.

(** What the closure computes on two elements when the field is speed. *)
Definition speed_less `{GoStd} (sortOrder : string) (ri rj : State) : bool :=
  if decide (strings.ToLower sortOrder = "desc")
  then negb (CurrentSpeed ri <? CurrentSpeed rj)
  else CurrentSpeed ri <? CurrentSpeed rj.

End Rocket.

(** ** Instances for the examples

    Identifiers are numbers and times are milliseconds; the examples keep
    to ASCII strings, and the generator is the 64-bit xorshift with shifts
    13, 7 and 17. *)

Definition exampleUUID : UUIDLib :=
  {| UUID := N; UUID_Nil := 0%N; UUID_String := fun n => pretty n |}.

Definition exampleTime : TimeLib :=
  {| Time := Z; Time_zero := 0; Time_Before := Z.ltb |}.

Definition example_xorshift (r : N) : N :=
  let r := N.lxor r (N.land (N.shiftl r 13) (N.ones 64)) in
  let r := N.lxor r (N.shiftr r 7) in
  N.lxor r (N.land (N.shiftl r 17) (N.ones 64)).

Definition exampleGoStd : GoStd :=
  {| Map_unicode_ToLower := fun s => s; xorshift_Next := example_xorshift |}.

Section Examples.

Local Existing Instance exampleUUID.
Local Existing Instance exampleTime.

Definition exState (id : N) (speed : Z) (seq : Z) : State :=
  mkState id "Falcon-9" speed "ARTEMIS" "LAUNCHED" None 50%Z seq.

Definition exWorld (st : State) : world :=
  mkWorld {[ ID st := st ]} [].

Definition exMessage (id : N) (seq : Z) (ty : string) (m : Message)
  : TelemetryMessage :=
  mkTelemetryMessage (mkMessageMetadata id seq 60%Z ty) m.

Definition exAmount (d : Z) : Message :=
  mkMessage (Some d) None None None None None.

Definition exReason (r : string) : Message :=
  mkMessage None None None None (Some r) None.

Definition exEmpty : Message :=
  mkMessage None None None None None None.

Definition exWorld0 : world := mkWorld NewInMemoryRocketStore [].

(** Three events of entity 7, the second one stale. *)
Definition exRun : list TelemetryMessage :=
  [ exMessage 7 3 "RocketSpeedIncreased" (exAmount 500);
    exMessage 7 1 "RocketSpeedIncreased" (exAmount 5);
    exMessage 7 5 "RocketSpeedDecreased" (exAmount 200) ].

End Examples.

(** * [int64] arithmetic *)

Lemma wrap64_id (z : Z) : in_int64 z -> wrap64 z = z.
Proof.
  unfold in_int64, int64_min, int64_max, wrap64. intros Hz.
  rewrite Z.mod_small; lia.
Qed.

Lemma wrap64_range (z : Z) : in_int64 (wrap64 z).
Proof.
  unfold in_int64, int64_min, int64_max, wrap64.
  pose proof (Z.mod_pos_bound (z + 2 ^ 63) (2 ^ 64)). lia.
Qed.

(** * The aggregation engine: what [ProcessMessage] does *)

Section Engine.

Context `{UUIDLib} `{TimeLib}.

Lemma store_wf_empty : store_wf NewInMemoryRocketStore.
Proof. intros id st Hl. unfold NewInMemoryRocketStore in Hl. by rewrite lookup_empty in Hl. Qed.

Lemma store_wf_SaveRocket (state : State) (s : gmap UUID State) :
  store_wf s -> store_wf (store_SaveRocket state s).
Proof.
  intros Hwf id st. unfold store_SaveRocket.
  destruct (decide (ID state = id)) as [<-|Hne].
  - rewrite lookup_insert_eq. by intros [= <-].
  - rewrite lookup_insert_ne by done. apply Hwf.
Qed.

(** The switch reads the message only: it leaves the world alone, and the
    fields it does not assign keep their values. *)
Lemma applyMessageType_world (msg : TelemetryMessage) (s : State) (w : world) :
  snd (applyMessageType msg s w) = w.
Proof.
  unfold applyMessageType, bind, deref, ret, panic.
  repeat case_decide; repeat (case_match; simpl in *; simplify_eq); done.
Qed.

Lemma applyMessageType_frame (msg : TelemetryMessage) (s s' : State) (w w' : world) :
  applyMessageType msg s w = (Ok s', w') ->
  ID s' = ID s /\
  LastProcessedMessageNumber s' = LastProcessedMessageNumber s /\
  LastUpdateTime s' = LastUpdateTime s.
Proof.
  unfold applyMessageType, bind, deref, ret, panic.
  repeat case_decide; repeat (case_match; simpl in *; simplify_eq);
    intros; simplify_eq; done.
Qed.

Lemma applyMessageType_ok (msg : TelemetryMessage) (s : State) (w : world) :
  payload_ok msg = true ->
  exists s', applyMessageType msg s w = (Ok s', w).
Proof.
  unfold payload_ok, applyMessageType, bind, deref, ret, panic.
  repeat case_decide; intros Hok;
    repeat match goal with
    | Hb : _ && _ = true |- _ => apply andb_true_iff in Hb; destruct Hb
    | Hb : bool_decide _ = true |- _ => apply bool_decide_eq_true in Hb; destruct Hb as [? ->]
    end; eauto.
Qed.

(** The three ways a call ends. *)
Lemma ProcessMessage_cases (msg : TelemetryMessage) (w : world) :
  (dropped msg w = true /\ ProcessMessage msg w = (Ok None, w))
  \/ (dropped msg w = false /\
      exists s', applyMessageType msg (baseState msg w) w = (Ok s', w) /\
        ProcessMessage msg w =
          (Ok None, mkWorld (<[ID s' := s']> (rockets w)) (saved w ++ [s'])))
  \/ (dropped msg w = false /\
      applyMessageType msg (baseState msg w) w = (Panic, w) /\
      ProcessMessage msg w = (Panic, w)).
Proof.
  unfold ProcessMessage, dropped, baseState, GetRocketByID, store_GetRocketByID,
    SaveRocket, store_SaveRocket, bind, ret.
  destruct (rockets w !! Channel (Metadata msg)) as [cur|] eqn:Hcur; simpl.
  - destruct (MessageNumber (Metadata msg) <=? LastProcessedMessageNumber cur) eqn:Hle.
    + left. done.
    + right.
      pose proof (applyMessageType_world msg
        (set_LastUpdateTime (MessageTime (Metadata msg))
          (set_LastProcessedMessageNumber (MessageNumber (Metadata msg)) cur)) w) as Hw.
      destruct (applyMessageType msg _ w) as [[s'|] w'] eqn:Happ; simpl in Hw; subst w'.
      * left. split; [done|]. exists s'. done.
      * right. done.
  - right.
    pose proof (applyMessageType_world msg
      (set_LastUpdateTime (MessageTime (Metadata msg))
        (set_LastProcessedMessageNumber (MessageNumber (Metadata msg))
          (mkState (Channel (Metadata msg)) "" 0 "" "UNKNOWN" None Time_zero 0))) w) as Hw.
    destruct (applyMessageType msg _ w) as [[s'|] w'] eqn:Happ; simpl in Hw; subst w'.
    + left. split; [done|]. exists s'. done.
    + right. done.
Qed.

Lemma after_cases (msg : TelemetryMessage) (w : world) :
  (dropped msg w = true /\ after msg w = w)
  \/ (dropped msg w = false /\
      exists s', applyMessageType msg (baseState msg w) w = (Ok s', w) /\
        after msg w = mkWorld (<[ID s' := s']> (rockets w)) (saved w ++ [s']))
  \/ (dropped msg w = false /\
      applyMessageType msg (baseState msg w) w = (Panic, w) /\
      after msg w = w).
Proof.
  unfold after.
  destruct (ProcessMessage_cases msg w) as [[Hd ->]|[[Hd [s' [Ha ->]]]|[Hd [Ha ->]]]];
    eauto 10.
Qed.

Lemma baseState_ID (msg : TelemetryMessage) (w : world) :
  store_wf (rockets w) -> ID (baseState msg w) = Channel (Metadata msg).
Proof.
  intros Hwf. unfold baseState.
  destruct (rockets w !! Channel (Metadata msg)) as [cur|] eqn:Hcur; simpl; [|done].
  by apply Hwf.
Qed.

Lemma baseState_seq (msg : TelemetryMessage) (w : world) :
  LastProcessedMessageNumber (baseState msg w) = MessageNumber (Metadata msg).
Proof. done. Qed.

(** An accepted, well-formed call: the state it saves. *)
Lemma applied_state (msg : TelemetryMessage) (w : world) (s' : State) :
  store_wf (rockets w) ->
  applyMessageType msg (baseState msg w) w = (Ok s', w) ->
  ID s' = Channel (Metadata msg) /\
  LastProcessedMessageNumber s' = MessageNumber (Metadata msg) /\
  LastUpdateTime s' = MessageTime (Metadata msg).
Proof.
  intros Hwf Happ. apply applyMessageType_frame in Happ as (Hid & Hseq & Ht).
  rewrite Hid, Hseq, Ht, baseState_ID by done. done.
Qed.

Lemma store_wf_after (msg : TelemetryMessage) (w : world) :
  store_wf (rockets w) -> store_wf (rockets (after msg w)).
Proof.
  intros Hwf.
  destruct (after_cases msg w) as [[_ ->]|[[_ [s' [_ ->]]]|[_ [_ ->]]]]; try done.
  simpl. by apply (store_wf_SaveRocket s').
Qed.

Lemma dropped_spec (msg : TelemetryMessage) (w : world) :
  dropped msg w = true <->
  exists n, lastSequence (Channel (Metadata msg)) w = Some n /\
            MessageNumber (Metadata msg) <= n.
Proof.
  unfold dropped, lastSequence.
  destruct (rockets w !! Channel (Metadata msg)) as [cur|]; simpl.
  - rewrite Z.leb_le. split; [eauto|]. by intros (n & [= <-] & Hn).
  - split; [done|]. by intros (n & ? & _).
Qed.

(** One call never lowers the stored sequence number of any entity. *)
Lemma after_lastSequence_mono (msg : TelemetryMessage) (w : world) (id : UUID) (n : Z) :
  store_wf (rockets w) ->
  lastSequence id w = Some n ->
  exists n', lastSequence id (after msg w) = Some n' /\ n <= n'.
Proof.
  intros Hwf Hn.
  destruct (after_cases msg w) as [[_ ->]|[[Hd [s' [Ha ->]]]|[_ [_ ->]]]];
    [exists n; split; [done|lia]| |exists n; split; [done|lia]].
  destruct (applied_state msg w s' Hwf Ha) as (Hid & Hseq & _).
  unfold lastSequence in *. simpl. rewrite Hid.
  destruct (decide (Channel (Metadata msg) = id)) as [Heq|Hne].
  - rewrite Heq, lookup_insert_eq. simpl. eexists; split; [done|]. rewrite Hseq.
    destruct (decide (MessageNumber (Metadata msg) <= n)) as [Hle|]; [|lia].
    assert (dropped msg w = true) as Hd'; [|congruence].
    apply dropped_spec. unfold lastSequence. rewrite Heq. eauto.
  - rewrite lookup_insert_ne by done. exists n. split; [done|lia].
Qed.

Lemma last_trace (w : world) (msgs : list TelemetryMessage) :
  default w (last (trace w msgs)) = fold_left (fun w msg => after msg w) msgs w.
Proof.
  revert w. induction msgs as [|msg msgs IH]; intros w; [done|].
  simpl. rewrite <- IH, last_cons. destruct (last (trace (after msg w) msgs)); done.
Qed.

Lemma fold_max_above (l : list Z) (n x : Z) :
  n <= x -> fold_left Z.max l (Z.max n x) = fold_left Z.max l x.
Proof. intros Hle. by rewrite Z.max_r. Qed.

(** The run of a list of well-formed events of one entity, started where
    the entity has sequence number [n]: the events that pass the check lie
    above [n], and the entity ends at the largest of [n] and of them. *)
Lemma run_lastSequence (id : UUID) (msgs : list TelemetryMessage) :
  Forall (fun msg => Channel (Metadata msg) = id /\ payload_ok msg = true) msgs ->
  forall (w : world) (n : Z),
  store_wf (rockets w) ->
  lastSequence id w = Some n ->
  Forall (fun x => n < x) (not_dropped w msgs) /\
  lastSequence id (default w (last (trace w msgs)))
  = Some (fold_left Z.max (not_dropped w msgs) n).
Proof.
  induction 1 as [|msg msgs [Hch Hok] _ IH]; intros w n Hwf Hn; [done|].
  rewrite last_trace. simpl. rewrite <- last_trace.
  pose proof (store_wf_after msg w Hwf) as Hwf'.
  destruct (after_cases msg w) as [[Hd Haft]|[[Hd [s' [Ha Haft]]]|[Hd [Ha _]]]].
  - rewrite Hd, Haft. simpl. by apply IH.
  - rewrite Hd. simpl.
    destruct (applied_state msg w s' Hwf Ha) as (Hid & Hseq & _).
    assert (n < MessageNumber (Metadata msg)) as Hlt.
    { destruct (decide (MessageNumber (Metadata msg) <= n)); [|lia].
      assert (dropped msg w = true); [|congruence].
      apply dropped_spec. rewrite Hch. eauto. }
    assert (lastSequence id (after msg w) = Some (MessageNumber (Metadata msg))) as Hn'.
    { rewrite Haft. unfold lastSequence. simpl. rewrite Hid, Hch, lookup_insert_eq.
      simpl. by rewrite Hseq. }
    destruct (IH _ _ Hwf' Hn') as [Hall Hfin]. split.
    + constructor; [done|]. eapply Forall_impl; [exact Hall|]. simpl. lia.
    + rewrite Hfin. f_equal. rewrite Z.max_r by lia. done.
  - destruct (applyMessageType_ok msg (baseState msg w) w Hok) as [s' Hs']. congruence.
Qed.

(** C1: when the entity has a stored state and the event's sequence number
    is at most the state's [LastProcessedMessageNumber], [ProcessMessage]
    returns a nil error and leaves the world as it was: the store is the
    same map and nothing was handed to [SaveRocket]. *)
Theorem ProcessMessage_stale_dropped
    (msg : TelemetryMessage) (w : world) (storedState : State) :
  rockets w !! Channel (Metadata msg) = Some storedState ->
  MessageNumber (Metadata msg) <= LastProcessedMessageNumber storedState ->
  ProcessMessage msg w = (Ok None, w).
Proof.
  intros Hst Hle.
  destruct (ProcessMessage_cases msg w) as [[_ Hpm]|[[Hd _]|[Hd _]]]; [done| |];
    exfalso; unfold dropped in Hd; rewrite Hst in Hd;
    apply Z.leb_gt in Hd; lia.
Qed.

(** C2: along the calls for a list of events of one entity, delivered in
    any order, the stored sequence number never decreases from one point
    to the next; and, the events being well formed, when some event
    passed the check the entity ends at the largest sequence number among
    the events that were not dropped. *)
Theorem lastSequence_monotonic_max
    (id : UUID) (w : world) (msgs : list TelemetryMessage) :
  store_wf (rockets w) ->
  Forall (fun msg => Channel (Metadata msg) = id) msgs ->
  (forall (i : nat) (wi wj : world) (n : Z),
      (w :: trace w msgs) !! i = Some wi ->
      (w :: trace w msgs) !! S i = Some wj ->
      lastSequence id wi = Some n ->
      exists n', lastSequence id wj = Some n' /\ n <= n')
  /\ (Forall (fun msg => payload_ok msg = true) msgs ->
      not_dropped w msgs <> [] ->
      lastSequence id (default w (last (trace w msgs)))
      = max_list_Z (not_dropped w msgs)).
Proof.
  intros Hwf Hch. split.
  - clear Hch. revert w Hwf. induction msgs as [|msg msgs IH]; intros w Hwf i wi wj n Hi Hj Hn.
    + destruct i; simplify_eq/=.
    + destruct i as [|i]; simpl in Hi, Hj.
      * simplify_eq. by apply after_lastSequence_mono.
      * eapply (IH (after msg w)); eauto using store_wf_after.
  - intros Hok Hne.
    assert (Forall (fun msg => Channel (Metadata msg) = id /\ payload_ok msg = true) msgs) as Hall.
    { apply Forall_and. done. }
    destruct (lastSequence id w) as [n|] eqn:Hn.
    + destruct (run_lastSequence id msgs Hall w n Hwf Hn) as [Habove Hfin].
      rewrite Hfin. destruct (not_dropped w msgs) as [|x xs]; [done|].
      simpl. apply Forall_cons in Habove as [Hx _]. by rewrite Z.max_r by lia.
    + destruct msgs as [|msg msgs]; [done|].
      apply Forall_cons in Hall as [[Hc Hp] Hall].
      assert (dropped msg w = false) as Hd.
      { destruct (dropped msg w) eqn:Hd; [|done].
        apply dropped_spec in Hd as (n & Hn' & _). rewrite Hc in Hn'. congruence. }
      rewrite last_trace. simpl. rewrite <- last_trace. rewrite Hd. simpl.
      destruct (after_cases msg w) as [[Hd' _]|[[_ [s' [Ha Haft]]]|[_ [Ha _]]]];
        [congruence| |].
      * destruct (applied_state msg w s' Hwf Ha) as (Hid & Hseq & _).
        assert (lastSequence id (after msg w) = Some (MessageNumber (Metadata msg))) as Hn'.
        { rewrite Haft. unfold lastSequence. simpl. rewrite Hid, Hc, lookup_insert_eq.
          simpl. by rewrite Hseq. }
        destruct (run_lastSequence id msgs Hall (after msg w) _
                    (store_wf_after msg w Hwf) Hn') as [_ Hfin].
        exact Hfin.
      * destruct (applyMessageType_ok msg (baseState msg w) w Hp) as [s' Hs']. congruence.
Qed.

(** C3: on an identifier with no stored state, the Launched event with
    type "Falcon-9", launchSpeed 1000, mission "ARTEMIS", sequence 1 and
    time [T] returns a nil error and saves exactly the state
    {id, Falcon-9, 1000, ARTEMIS, LAUNCHED, no reason, T, 1}. *)
Theorem ProcessMessage_launch
    (id : UUID) (T : Time) (w : world) :
  rockets w !! id = None ->
  let msg := mkTelemetryMessage
               (mkMessageMetadata id 1 T MessageTypeLaunched)
               (mkMessage None (Some 1000) (Some "ARTEMIS") None None
                          (Some "Falcon-9")) in
  let expected := mkState id "Falcon-9" 1000 "ARTEMIS" "LAUNCHED" None T 1 in
  ProcessMessage msg w
  = (Ok None, mkWorld (<[id := expected]> (rockets w)) (saved w ++ [expected])).
Proof.
  intros Hnone msg expected.
  unfold ProcessMessage, GetRocketByID, store_GetRocketByID, bind. simpl.
  rewrite Hnone. done.
Qed.

(** C4: an Exploded event with reason "fuel leak" that passes the
    sequencing check is saved with speed 0, status EXPLODED and reason
    "fuel leak", whatever the speed of the stored state was. *)
Theorem ProcessMessage_exploded
    (msg : TelemetryMessage) (w : world) (storedState : State) :
  rockets w !! Channel (Metadata msg) = Some storedState ->
  LastProcessedMessageNumber storedState < MessageNumber (Metadata msg) ->
  MessageType_ (Metadata msg) = MessageTypeExploded ->
  msgReason (Message_ msg) = Some "fuel leak" ->
  exists s',
    ProcessMessage msg w
    = (Ok None, mkWorld (<[ID storedState := s']> (rockets w)) (saved w ++ [s']))
    /\ CurrentSpeed s' = 0
    /\ Status_ s' = StatusExploded
    /\ Reason s' = Some "fuel leak".
Proof.
  intros Hst Hlt Hty Hre.
  unfold ProcessMessage, GetRocketByID, store_GetRocketByID, bind. simpl.
  rewrite Hst.
  replace (MessageNumber (Metadata msg) <=? LastProcessedMessageNumber storedState)
    with false by (symmetry; apply Z.leb_gt; lia).
  simpl. unfold applyMessageType. rewrite Hty, Hre. simpl.
  eexists. split; [reflexivity|]. done.
Qed.

(** C5: from a stored speed of 1000, an accepted SpeedIncreased by 500
    (sequence 2) followed by an accepted SpeedDecreased by 200 (sequence 3)
    leaves a stored speed of 1300; and the speed is a signed integer that
    SpeedDecreased can take below zero. *)
Theorem ProcessMessage_speed_arithmetic :
  (forall (id : UUID) (w : world) (storedState : State) (m2 m3 : TelemetryMessage),
      store_wf (rockets w) ->
      rockets w !! id = Some storedState ->
      CurrentSpeed storedState = 1000 ->
      LastProcessedMessageNumber storedState < 2 ->
      Channel (Metadata m2) = id -> Channel (Metadata m3) = id ->
      MessageNumber (Metadata m2) = 2 -> MessageNumber (Metadata m3) = 3 ->
      MessageType_ (Metadata m2) = MessageTypeSpeedIncreased ->
      MessageType_ (Metadata m3) = MessageTypeSpeedDecreased ->
      By (Message_ m2) = Some 500 -> By (Message_ m3) = Some 200 ->
      exists s',
        rockets (after m3 (after m2 w)) !! id = Some s'
        /\ CurrentSpeed s' = 1300 /\ LastProcessedMessageNumber s' = 3)
  /\ (exists (w : world) (msg : TelemetryMessage) (s s' : State),
        rockets w !! Channel (Metadata msg) = Some s
        /\ 0 <= CurrentSpeed s
        /\ MessageType_ (Metadata msg) = MessageTypeSpeedDecreased
        /\ dropped msg w = false
        /\ rockets (after msg w) !! Channel (Metadata msg) = Some s'
        /\ CurrentSpeed s' < 0).
Proof.
  split.
  - intros id w st m2 m3 Hwf Hst Hsp Hlt Hc2 Hc3 Hn2 Hn3 Ht2 Ht3 Hb2 Hb3.
    assert (ID st = id) as Hid by (by apply Hwf).
    unfold after at 2. unfold ProcessMessage, GetRocketByID, store_GetRocketByID, bind.
    simpl. rewrite Hc2, Hst, Hn2.
    replace (2 <=? LastProcessedMessageNumber st) with false
      by (symmetry; apply Z.leb_gt; lia).
    simpl. unfold applyMessageType. rewrite Ht2, Hb2. simpl. rewrite Hsp.
    unfold store_SaveRocket. simpl. rewrite Hid.
    unfold after, ProcessMessage, GetRocketByID, store_GetRocketByID, bind.
    simpl. rewrite Hc3, lookup_insert_eq, Hn3. simpl.
    unfold applyMessageType. rewrite Ht3, Hb3. simpl.
    unfold store_SaveRocket. simpl. rewrite Hid, lookup_insert_eq.
    eexists. split; [reflexivity|]. done.
  - set (st := mkState UUID_Nil "" 0 "" "UNKNOWN" None Time_zero 0).
    exists (mkWorld {[UUID_Nil := st]} []),
      (mkTelemetryMessage
         (mkMessageMetadata UUID_Nil 1 Time_zero MessageTypeSpeedDecreased)
         (mkMessage (Some 1) None None None None None)),
      st.
    eexists. unfold after, dropped, ProcessMessage, GetRocketByID,
      store_GetRocketByID, bind. simpl.
    rewrite lookup_singleton_eq. simpl.
    unfold store_SaveRocket. simpl.
    rewrite lookup_insert_eq. repeat split; reflexivity.
Qed.

(** C6: delivering the same event a second time changes nothing: the
    world after two calls is the world after one. *)
Theorem ProcessMessage_idempotent (msg : TelemetryMessage) (w : world) :
  store_wf (rockets w) ->
  after msg (after msg w) = after msg w.
Proof.
  intros Hwf.
  destruct (after_cases msg w) as [[Hd Haft]|[[Hd [s' [Ha Haft]]]|[Hd [Ha Haft]]]].
  - by rewrite !Haft.
  - destruct (applied_state msg w s' Hwf Ha) as (Hid & Hseq & _).
    destruct (after_cases msg (after msg w)) as [[_ ->]|[[Hd' _]|[Hd' _]]]; [done| |];
      exfalso; rewrite Haft in Hd'; unfold dropped in Hd'; simpl in Hd';
      rewrite Hid, lookup_insert_eq, Hseq in Hd'; apply Z.leb_gt in Hd'; lia.
  - by rewrite !Haft.
Qed.

(** C9: on an identifier with no stored state the sequencing check is not
    made: a well-formed first event is applied whatever its sequence
    number (zero and negative numbers included), and the state saved
    under the identifier carries that number. *)
Theorem ProcessMessage_first_event (msg : TelemetryMessage) (w : world) :
  rockets w !! Channel (Metadata msg) = None ->
  payload_ok msg = true ->
  dropped msg w = false /\
  exists s',
    ProcessMessage msg w
    = (Ok None, mkWorld (<[Channel (Metadata msg) := s']> (rockets w))
                        (saved w ++ [s']))
    /\ ID s' = Channel (Metadata msg)
    /\ LastProcessedMessageNumber s' = MessageNumber (Metadata msg).
Proof.
  intros Hnone Hok.
  assert (dropped msg w = false) as Hd by (unfold dropped; by rewrite Hnone).
  split; [done|].
  destruct (ProcessMessage_cases msg w) as [[Hd' _]|[[_ [s' [Ha Hpm]]]|[_ [Ha _]]]];
    [congruence| |].
  - apply applyMessageType_frame in Ha as (Hid & Hseq & _).
    unfold baseState in Hid, Hseq. rewrite Hnone in Hid, Hseq. simpl in Hid, Hseq.
    exists s'. rewrite Hpm, Hid. done.
  - destruct (applyMessageType_ok msg (baseState msg w) w Hok) as [s' Hs']. congruence.
Qed.

(** C10: an event of none of the five kinds that passes the sequencing
    check is saved all the same: the saved state carries the event's
    sequence number and time; it is the stored state in every other field,
    or, for an unseen identifier, the fresh state with status UNKNOWN. *)
Theorem ProcessMessage_unrecognized_kind (msg : TelemetryMessage) (w : world) :
  unrecognized (MessageType_ (Metadata msg)) ->
  dropped msg w = false ->
  exists s',
    ProcessMessage msg w
    = (Ok None, mkWorld (<[ID s' := s']> (rockets w)) (saved w ++ [s']))
    /\ LastProcessedMessageNumber s' = MessageNumber (Metadata msg)
    /\ LastUpdateTime s' = MessageTime (Metadata msg)
    /\ match rockets w !! Channel (Metadata msg) with
       | Some storedState =>
           ID s' = ID storedState /\ Type_ s' = Type_ storedState
           /\ CurrentSpeed s' = CurrentSpeed storedState
           /\ Mission s' = Mission storedState
           /\ Status_ s' = Status_ storedState
           /\ Reason s' = Reason storedState
       | None =>
           s' = mkState (Channel (Metadata msg)) "" 0 "" "UNKNOWN" None
                        (MessageTime (Metadata msg))
                        (MessageNumber (Metadata msg))
       end.
Proof.
  intros (Hl & He & Hm & Hi & Hdc) Hd.
  assert (applyMessageType msg (baseState msg w) w = (Ok (baseState msg w), w)) as Happ.
  { unfold applyMessageType. repeat case_decide; done. }
  destruct (ProcessMessage_cases msg w) as [[Hd' _]|[[_ [s' [Ha Hpm]]]|[_ [Ha _]]]];
    [congruence| |congruence].
  rewrite Happ in Ha. simplify_eq. eexists. split; [exact Hpm|].
  unfold baseState. destruct (rockets w !! Channel (Metadata msg)); done.
Qed.

End Engine.

(** * [sort.Slice] sorts *)

Import sort.

Section SortFacts.

Local Open Scope nat_scope.

Context `{GoStd} {A : Type}.

(** ** The two loop rules *)

Lemma loop_spec {St Res : Type} (Inv : St -> Prop) (Post : Res -> Prop)
    (m : St -> nat) (body : St -> option (step St Res)) :
  (forall s, Inv s ->
     exists st, body s = Some st /\
       match st with
       | Continue s' => Inv s' /\ m s' < m s
       | Break r => Post r
       end) ->
  forall fuel s, Inv s -> m s < fuel ->
  exists r, loop fuel body s = Some r /\ Post r.
Proof.
  intros Hbody fuel. induction fuel as [|fuel IH]; intros s Hinv Hm; [lia|].
  destruct (Hbody s Hinv) as ([s'|r] & Hb & Hst); simpl; rewrite Hb.
  - destruct Hst as [Hinv' Hm']. apply IH; [done|lia].
  - eauto.
Qed.

Lemma for_each_spec {St : Type} (Inv : nat -> St -> Prop)
    (counter : list nat) (body : nat -> St -> option St) :
  (forall k i s, counter !! k = Some i -> Inv k s ->
     exists s', body i s = Some s' /\ Inv (k + 1) s') ->
  forall s, Inv 0 s ->
  exists s', for_each counter body s = Some s' /\ Inv (length counter) s'.
Proof.
  revert Inv. induction counter as [|i counter IH]; intros Inv Hbody s Hinv.
  - simpl. eauto.
  - destruct (Hbody 0 i s eq_refl Hinv) as (s1 & Hb & Hinv1). simpl. rewrite Hb.
    destruct (IH (fun k => Inv (S k))) with (s := s1) as (s' & Hf & Hinv').
    + intros k j s2 Hk Hi2. replace (S (k + 1)) with (S k + 1) by lia.
      by apply Hbody.
    + done.
    + eauto.
Qed.

(** ** [Swap] *)

Lemma Swap_Some (data : list A) (i j : nat) :
  i < length data -> j < length data ->
  exists data', Swap data i j = Some data'.
Proof.
  intros Hi Hj. unfold Swap.
  destruct (lookup_lt_is_Some_2 data i Hi) as [x ->].
  destruct (lookup_lt_is_Some_2 data j Hj) as [y ->]. simpl. eauto.
Qed.

Lemma Swap_inv (data data' : list A) (i j : nat) :
  Swap data i j = Some data' ->
  i < length data /\ j < length data /\ length data' = length data /\
  data' ≡ₚ data /\
  forall k, data' !! k = if decide (k = j) then data !! i
                         else if decide (k = i) then data !! j
                         else data !! k.
Proof.
  unfold Swap. intros Hs.
  destruct (data !! i) as [x|] eqn:Hx; simpl in Hs; [|done].
  destruct (data !! j) as [y|] eqn:Hy; simpl in Hs; [|done].
  simplify_eq.
  pose proof (lookup_lt_Some _ _ _ Hx). pose proof (lookup_lt_Some _ _ _ Hy).
  repeat split; try done.
  - by rewrite !length_insert.
  - by apply Permutation_insert_swap.
  - intros k. destruct (decide (k = j)) as [->|Hkj].
    + rewrite list_lookup_insert_eq by (by rewrite length_insert). done.
    + rewrite list_lookup_insert_ne by done.
      destruct (decide (k = i)) as [->|Hki].
      * by rewrite list_lookup_insert_eq.
      * by rewrite list_lookup_insert_ne.
Qed.

(** ** Shuffles inside a range: what a run of in-range swaps does *)

Lemma shuffled_trans (a b : nat) (d1 d2 d3 : list A) :
  shuffled a b d1 d2 -> shuffled a b d2 d3 -> shuffled a b d1 d3.
Proof. induction 1; eauto using shuffled. Qed.

Lemma shuffled_mono (a b a' b' : nat) (d1 d2 : list A) :
  a' <= a -> b <= b' -> shuffled a b d1 d2 -> shuffled a' b' d1 d2.
Proof.
  intros Ha Hb. induction 1 as [|d i j d' d'' Hi Hj Hs _ IH]; [constructor|].
  eapply shuffled_swap; [| |exact Hs|exact IH]; lia.
Qed.

Lemma shuffled_one (a b : nat) (data data' : list A) (i j : nat) :
  a <= i < b -> a <= j < b -> Swap data i j = Some data' ->
  shuffled a b data data'.
Proof.
  intros Hi Hj Hs. eapply shuffled_swap; [exact Hi|exact Hj|exact Hs|].
  apply shuffled_refl.
Qed.

Lemma shuffled_length (a b : nat) (d d' : list A) :
  shuffled a b d d' -> length d' = length d.
Proof.
  induction 1 as [|d i j d' d'' _ _ Hs _ IH]; [done|].
  apply Swap_inv in Hs as (_ & _ & Hl & _). congruence.
Qed.

Lemma shuffled_Permutation (a b : nat) (d d' : list A) :
  shuffled a b d d' -> d' ≡ₚ d.
Proof.
  induction 1 as [|d i j d' d'' _ _ Hs _ IH]; [done|].
  apply Swap_inv in Hs as (_ & _ & _ & Hp & _). by rewrite IH.
Qed.

Lemma shuffled_outside (a b : nat) (d d' : list A) (k : nat) :
  shuffled a b d d' -> k < a \/ b <= k -> d' !! k = d !! k.
Proof.
  induction 1 as [|d i j d' d'' Hi Hj Hs _ IH]; intros Hk; [done|].
  rewrite IH by done.
  apply Swap_inv in Hs as (_ & _ & _ & _ & Hl). rewrite Hl.
  repeat case_decide; try done; lia.
Qed.

Lemma shuffled_range_all (P : A -> Prop) (a b : nat) (d d' : list A) :
  shuffled a b d d' -> range_all P a b d -> range_all P a b d'.
Proof.
  induction 1 as [|d i j d' d'' Hi Hj Hs _ IH]; intros Hall; [done|].
  apply IH. apply Swap_inv in Hs as (_ & _ & _ & _ & Hl).
  intros k x Hk. rewrite Hl. repeat case_decide; subst; intros Hx;
    eapply Hall; try exact Hx; lia.
Qed.

Lemma range_all_mono (P : A -> Prop) (a b a' b' : nat) (d : list A) :
  a <= a' -> b' <= b -> range_all P a b d -> range_all P a' b' d.
Proof. intros Ha Hb Hall i x Hi. apply Hall. lia. Qed.

End SortFacts.

Section Sorting.

Local Open Scope nat_scope.

Local Arguments loop : simpl never.
Local Arguments for_each : simpl never.
Local Arguments Nat.leb : simpl never.
Local Arguments Nat.ltb : simpl never.
Local Arguments Nat.eqb : simpl never.
Local Arguments Nat.div : simpl never.
Local Arguments Nat.sub : simpl never.
Local Arguments Nat.add : simpl never.
Local Arguments Nat.mul : simpl never.

Context `{GoStd} {A : Type}.

(** The comparison [R] behind the closure and the order [le] the result
    is sorted by.  [R] may be the strict or the non-strict side of [le]:
    it says [true] only between elements in order and [false] only
    between elements in the opposite order. *)
Variable R : A -> A -> bool.
Variable le : A -> A -> Prop.

Hypothesis R_le : forall x y, R x y = true -> le x y.
Hypothesis nR_le : forall x y, R x y = false -> le y x.
Hypothesis le_trans : forall x y z, le x y -> le y z -> le x z.
Hypothesis R_trans : forall x y z, R x y = true -> R y z = true -> R x z = true.
Hypothesis R_incomparable :
  forall x z y, R x z = false -> R z x = false -> R y z = R y x.

(** The closure handed to the sort compares, by [R], the elements at the
    two indices. *)
Variable Less : list A -> nat -> nat -> option bool.

Hypothesis Less_elements :
  forall data i j, Less data i j = Less_by R data i j.

Local Abbreviation range_sorted := (sort.range_sorted le).
Local Abbreviation partition_inv := (sort.partition_inv R).
Local Abbreviation left_guard := (sort.left_guard R).
Local Abbreviation heap_from := (sort.heap_from le).

Lemma Less_by_lookup (data : list A) (i j : nat) (x y : A) :
  data !! i = Some x -> data !! j = Some y ->
  Less data i j = Some (R x y).
Proof. rewrite Less_elements. unfold Less_by. intros -> ->. done. Qed.

Lemma Less_by_Some (data : list A) (i j : nat) :
  i < length data -> j < length data ->
  exists x y, data !! i = Some x /\ data !! j = Some y /\
              Less data i j = Some (R x y).
Proof.
  intros Hi Hj.
  destruct (lookup_lt_is_Some_2 data i Hi) as [x Hx].
  destruct (lookup_lt_is_Some_2 data j Hj) as [y Hy].
  exists x, y. eauto using Less_by_lookup.
Qed.

Lemma le_refl (x : A) : le x x.
Proof. destruct (R x x) eqn:Hx; eauto. Qed.

Lemma shuffled_range_sorted_outside (a b a' b' : nat) (d d' : list A) :
  shuffled a b d d' -> b' <= a \/ b <= a' ->
  range_sorted a' b' d -> range_sorted a' b' d'.
Proof.
  intros Hsh Hdis Hs i j x y Hi Hij Hj.
  rewrite !(shuffled_outside a b d d') by (done || lia). by apply Hs.
Qed.

(** ** insertionSort_func *)

Lemma insertionSort_inner_spec (a i : nat) (data : list A) :
  a <= i -> i < length data -> range_sorted a i data ->
  exists data',
    loop (S (length data)) (fun '(j, data) =>
      if a <? j then
        lt ← Less data j (j - 1);
        if lt : bool then
          data ← Swap data j (j - 1); Some (Continue (j - 1, data))
        else Some (Break data)
      else Some (Break data)) (i, data) = Some data'
    /\ shuffled a (i + 1) data data' /\ range_sorted a (i + 1) data'.
Proof.
  intros Hai Hi Hsorted.
  apply (loop_spec
    (fun '(j, d) =>
       shuffled a (i + 1) data d /\ a <= j <= i /\
       (forall p q x y, a <= p -> p < q -> q <= i -> p <> j -> q <> j ->
          d !! p = Some x -> d !! q = Some y -> le x y) /\
       (forall q x y, j < q <= i -> d !! j = Some x -> d !! q = Some y -> le x y))
    (fun d => shuffled a (i + 1) data d /\ range_sorted a (i + 1) d)
    (fun '(j, d) => j)); [|by repeat split; intros; first [lia|eauto using shuffled; eapply Hsorted; eauto; lia]|lia].
  intros [j d] (Hsh & Hj & Hs1 & Hs2).
  pose proof (shuffled_length _ _ _ _ Hsh) as Hlen.
  destruct (a <? j) eqn:Haj.
  - apply Nat.ltb_lt in Haj.
    destruct (Less_by_Some d j (j - 1)) as (x & y & Hx & Hy & ->); [lia..|].
    simpl. destruct (R x y) eqn:HR.
    + destruct (Swap_Some d j (j - 1)) as [d' Hsw]; [lia..|].
      rewrite Hsw. simpl. eexists; split; [done|].
      pose proof (Swap_inv _ _ _ _ Hsw) as (_ & _ & _ & _ & Hl).
      split; [|lia]. split; [|split; [lia|split]].
      * eapply shuffled_trans; [exact Hsh|]. eapply shuffled_one; [| |exact Hsw]; lia.
      * intros p q x' y' Hp Hpq Hq Hpj Hqj. rewrite !Hl.
        repeat case_decide; subst; intros Hx' Hy'; simplify_eq;
          try lia; try (eapply Hs1; [| | | | |eassumption|eassumption]; lia).
      * intros q x' y' Hq. rewrite !Hl.
        repeat case_decide; subst; intros Hx' Hy'; simplify_eq; try lia.
        -- by apply R_le.
        -- eapply Hs2; [|eassumption|eassumption]. lia.
    + eexists; split; [done|]. split; [done|].
      intros p q x' y' Hp Hpq Hq Hx' Hy'.
      destruct (decide (q = j)) as [->|Hqj].
      * simplify_eq. destruct (decide (p = j - 1)) as [->|Hpj].
        -- simplify_eq. by apply nR_le.
        -- eapply le_trans; [|apply nR_le; exact HR].
           eapply (Hs1 p (j - 1)); [| | | | |eassumption|eassumption]; lia.
      * destruct (decide (p = j)) as [->|Hpj].
        -- eapply Hs2; [|eassumption|eassumption]. lia.
        -- eapply Hs1; [| | | | |eassumption|eassumption]; lia.
  - apply Nat.ltb_ge in Haj. eexists; split; [done|]. split; [done|].
    intros p q x' y' Hp Hpq Hq Hx' Hy'.
    destruct (decide (p = j)) as [->|Hpj].
    + eapply Hs2; [|eassumption|eassumption]. lia.
    + eapply Hs1; [| | | | |eassumption|eassumption]; lia.
Qed.

Lemma range_sorted_mono (a b a' b' : nat) (d : list A) :
  a <= a' -> b' <= b -> range_sorted a b d -> range_sorted a' b' d.
Proof. intros Ha Hb Hs i j x y Hi Hij Hj. apply Hs; lia. Qed.

Lemma insertionSort_func_spec (a b : nat) (data : list A) :
  a <= b -> b <= length data ->
  exists data',
    insertionSort_func Less a b data = Some data'
    /\ shuffled a b data data' /\ range_sorted a b data'.
Proof.
  intros Hab Hb. unfold insertionSort_func.
  destruct (for_each_spec
    (fun k d => shuffled a b data d /\ range_sorted a (a + 1 + k) d)
    (seq (a + 1) (b - (a + 1)))
    (fun i data =>
      loop (S (length data)) (fun '(j, data) =>
        if a <? j then
          lt ← Less data j (j - 1);
          if lt : bool then
            data ← Swap data j (j - 1); Some (Continue (j - 1, data))
          else Some (Break data)
        else Some (Break data)) (i, data))) with (s := data)
    as (d' & Hf & Hsh & Hs).
  - intros k i d Hk [Hsh Hs]. apply lookup_seq in Hk as [-> Hk].
    pose proof (shuffled_length _ _ _ _ Hsh) as Hlen.
    destruct (insertionSort_inner_spec a (a + 1 + k) d) as (d' & Hl & Hsh' & Hs');
      [lia|lia|done|].
    exists d'. split; [done|]. split.
    + eapply shuffled_trans; [exact Hsh|]. eapply shuffled_mono; [| |exact Hsh']; lia.
    + by replace (a + 1 + (k + 1)) with (a + 1 + k + 1) by lia.
  - split; [constructor|]. intros i j x y Hi Hij Hj. lia.
  - exists d'. split; [done|]. split; [done|].
    rewrite length_seq in Hs. eapply range_sorted_mono; [| |exact Hs]; lia.
Qed.

(** ** The four scans of the partitions *)

Lemma scan_less_spec (data : list A) (a j i : nat) (p : A) :
  data !! a = Some p -> i <= j + 1 -> j < length data ->
  exists i',
    scan_less Less data a j i = Some i'
    /\ i <= i' <= j + 1
    /\ range_all (fun x => R x p = true) i i' data
    /\ (i' <= j -> exists x, data !! i' = Some x /\ R x p = false).
Proof.
  intros Hp Hij Hj. unfold scan_less.
  apply (loop_spec
    (fun i1 => i <= i1 <= j + 1 /\ range_all (fun x => R x p = true) i i1 data)
    (fun i' => i <= i' <= j + 1
       /\ range_all (fun x => R x p = true) i i' data
       /\ (i' <= j -> exists x, data !! i' = Some x /\ R x p = false))
    (fun i1 => j + 1 - i1)); [| |lia].
  - intros i1 [Hi1 Hall]. destruct (i1 <=? j) eqn:Hle.
    + apply Nat.leb_le in Hle.
      destruct (lookup_lt_is_Some_2 data i1) as [x Hx]; [lia|].
      rewrite (Less_by_lookup _ _ _ _ _ Hx Hp). simpl.
      destruct (R x p) eqn:HR; (eexists; split; [done|]).
      * split; [|lia]. split; [lia|]. intros k y Hk Hy.
        destruct (decide (k = i1)) as [->|]; [by simplify_eq|].
        eapply Hall; [|exact Hy]. lia.
      * repeat split; [lia..|done|eauto].
    + apply Nat.leb_gt in Hle. eexists; split; [done|].
      repeat split; [lia..|done|lia].
  - split; [lia|]. intros k y Hk. lia.
Qed.

Lemma scan_not_less_spec (data : list A) (a i j : nat) (p : A) :
  data !! a = Some p -> 1 <= i <= j + 1 -> j < length data ->
  exists j',
    scan_not_less Less data a i j = Some j'
    /\ i <= j' + 1 /\ j' <= j
    /\ range_all (fun x => R x p = false) (j' + 1) (j + 1) data
    /\ (i <= j' -> exists x, data !! j' = Some x /\ R x p = true).
Proof.
  intros Hp Hij Hj. unfold scan_not_less.
  apply (loop_spec
    (fun j1 => i <= j1 + 1 /\ j1 <= j
       /\ range_all (fun x => R x p = false) (j1 + 1) (j + 1) data)
    (fun j' => i <= j' + 1 /\ j' <= j
       /\ range_all (fun x => R x p = false) (j' + 1) (j + 1) data
       /\ (i <= j' -> exists x, data !! j' = Some x /\ R x p = true))
    (fun j1 => j1)); [| |lia].
  - intros j1 (Hi1 & Hj1 & Hall). destruct (i <=? j1) eqn:Hle.
    + apply Nat.leb_le in Hle.
      destruct (lookup_lt_is_Some_2 data j1) as [x Hx]; [lia|].
      rewrite (Less_by_lookup _ _ _ _ _ Hx Hp). simpl.
      destruct (R x p) eqn:HR; (eexists; split; [done|]).
      * repeat split; [lia..|done|eauto].
      * split; [|lia]. split; [lia|]. split; [lia|]. intros k y Hk Hy.
        destruct (decide (k = j1)) as [->|]; [by simplify_eq|].
        eapply Hall; [|exact Hy]. lia.
    + apply Nat.leb_gt in Hle. eexists; split; [done|].
      repeat split; [lia..|done|lia].
  - split; [lia|]. split; [lia|]. intros k y Hk. lia.
Qed.

Lemma scan_not_greater_spec (data : list A) (a j i : nat) (p : A) :
  data !! a = Some p -> i <= j + 1 -> j < length data ->
  exists i',
    scan_not_greater Less data a j i = Some i'
    /\ i <= i' <= j + 1
    /\ range_all (fun x => R p x = false) i i' data
    /\ (i' <= j -> exists x, data !! i' = Some x /\ R p x = true).
Proof.
  intros Hp Hij Hj. unfold scan_not_greater.
  apply (loop_spec
    (fun i1 => i <= i1 <= j + 1 /\ range_all (fun x => R p x = false) i i1 data)
    (fun i' => i <= i' <= j + 1
       /\ range_all (fun x => R p x = false) i i' data
       /\ (i' <= j -> exists x, data !! i' = Some x /\ R p x = true))
    (fun i1 => j + 1 - i1)); [| |lia].
  - intros i1 [Hi1 Hall]. destruct (i1 <=? j) eqn:Hle.
    + apply Nat.leb_le in Hle.
      destruct (lookup_lt_is_Some_2 data i1) as [x Hx]; [lia|].
      rewrite (Less_by_lookup _ _ _ _ _ Hp Hx). simpl.
      destruct (R p x) eqn:HR; (eexists; split; [done|]).
      * repeat split; [lia..|done|eauto].
      * split; [|lia]. split; [lia|]. intros k y Hk Hy.
        destruct (decide (k = i1)) as [->|]; [by simplify_eq|].
        eapply Hall; [|exact Hy]. lia.
    + apply Nat.leb_gt in Hle. eexists; split; [done|].
      repeat split; [lia..|done|lia].
  - split; [lia|]. intros k y Hk. lia.
Qed.

Lemma scan_greater_spec (data : list A) (a i j : nat) (p : A) :
  data !! a = Some p -> 1 <= i <= j + 1 -> j < length data ->
  exists j',
    scan_greater Less data a i j = Some j'
    /\ i <= j' + 1 /\ j' <= j
    /\ range_all (fun x => R p x = true) (j' + 1) (j + 1) data
    /\ (i <= j' -> exists x, data !! j' = Some x /\ R p x = false).
Proof.
  intros Hp Hij Hj. unfold scan_greater.
  apply (loop_spec
    (fun j1 => i <= j1 + 1 /\ j1 <= j
       /\ range_all (fun x => R p x = true) (j1 + 1) (j + 1) data)
    (fun j' => i <= j' + 1 /\ j' <= j
       /\ range_all (fun x => R p x = true) (j' + 1) (j + 1) data
       /\ (i <= j' -> exists x, data !! j' = Some x /\ R p x = false))
    (fun j1 => j1)); [| |lia].
  - intros j1 (Hi1 & Hj1 & Hall). destruct (i <=? j1) eqn:Hle.
    + apply Nat.leb_le in Hle.
      destruct (lookup_lt_is_Some_2 data j1) as [x Hx]; [lia|].
      rewrite (Less_by_lookup _ _ _ _ _ Hp Hx). simpl.
      destruct (R p x) eqn:HR; (eexists; split; [done|]).
      * split; [|lia]. split; [lia|]. split; [lia|]. intros k y Hk Hy.
        destruct (decide (k = j1)) as [->|]; [by simplify_eq|].
        eapply Hall; [|exact Hy]. lia.
      * repeat split; [lia..|done|eauto].
    + apply Nat.leb_gt in Hle. eexists; split; [done|].
      repeat split; [lia..|done|lia].
  - split; [lia|]. split; [lia|]. intros k y Hk. lia.
Qed.

(** ** partition_func *)

Lemma range_all_join (P : A -> Prop) (a m b : nat) (d : list A) :
  range_all P a m d -> range_all P m b d -> range_all P a b d.
Proof.
  intros H1 H2 i x Hi Hx. destruct (decide (i < m)).
  - eapply H1; [|exact Hx]. lia.
  - eapply H2; [|exact Hx]. lia.
Qed.

Lemma partition_round (data0 : list A) (a b : nat) (p : A) (i j : nat) (d : list A) :
  partition_inv data0 a b p i j d ->
  exists i2 j2,
    scan_less Less d a j i = Some i2
    /\ scan_not_less Less d a i2 j = Some j2
    /\ ((j2 < i2 /\ partition_inv data0 a b p (j2 + 1) j2 d /\ a <= j2)
        \/ (i2 <= j2 /\ exists d',
              Swap d i2 j2 = Some d'
              /\ partition_inv data0 a b p (i2 + 1) (j2 - 1) d'
              /\ j2 - 1 + 1 - (i2 + 1) < j + 1 - i)).
Proof.
  intros (Hsh & Hp & Hij & Hjb & Hb & Ht & Hf).
  destruct (scan_less_spec d a j i p) as (i2 & Hsl & Hi2 & Hti & Hstop); [done|lia|lia|].
  destruct (scan_not_less_spec d a i2 j p) as (j2 & Hsn & Hj2 & Hj2' & Hfj & Hstop');
    [done|lia|lia|].
  exists i2, j2. split; [done|]. split; [done|].
  assert (range_all (fun x => R x p = true) (a + 1) i2 d) as Ht2
    by (eapply range_all_join; eauto).
  assert (range_all (fun x => R x p = false) (j2 + 1) b d) as Hf2
    by (eapply range_all_join; eauto).
  destruct (decide (j2 < i2)) as [Hlt|Hge].
  - left. split; [done|]. split; [|lia].
    assert (i2 = j2 + 1) as -> by lia.
    repeat split; try done; lia.
  - right. split; [lia|].
    destruct Hstop as (x & Hx & HRx); [lia|].
    destruct Hstop' as (y & Hy & HRy); [lia|].
    assert (i2 <> j2) as Hne by (intros ->; simplify_eq; congruence).
    destruct (Swap_Some d i2 j2) as [d' Hsw]; [lia..|].
    pose proof (Swap_inv _ _ _ _ Hsw) as (_ & _ & Hlen & _ & Hl).
    exists d'. split; [done|]. split; [|lia].
    split; [|split; [|split; [lia|split; [lia|split; [lia|split]]]]].
    + eapply shuffled_trans; [exact Hsh|]. eapply shuffled_one; [| |exact Hsw]; lia.
    + rewrite Hl. repeat case_decide; try lia. done.
    + intros k z Hk. rewrite Hl. repeat case_decide; subst; intros Hz.
      * lia.
      * by simplify_eq.
      * eapply Ht2; [|exact Hz]. lia.
    + intros k z Hk. rewrite Hl. repeat case_decide; subst; intros Hz.
      * by simplify_eq.
      * lia.
      * eapply Hf2; [|exact Hz]. lia.
Qed.

Lemma partition_finish (data0 : list A) (a b : nat) (p : A) (j : nat) (d : list A) :
  partition_inv data0 a b p (j + 1) j d -> a <= j ->
  exists d',
    Swap d j a = Some d'
    /\ shuffled a b data0 d' /\ d' !! j = Some p
    /\ range_all (fun x => R x p = true) a j d'
    /\ range_all (fun x => R x p = false) (j + 1) b d'.
Proof.
  intros (Hsh & Hp & Hij & Hjb & Hb & Ht & Hf) Haj.
  destruct (Swap_Some d j a) as [d' Hsw]; [lia..|].
  pose proof (Swap_inv _ _ _ _ Hsw) as (_ & _ & Hlen & _ & Hl).
  exists d'. split; [done|]. split; [|split; [|split]].
  - eapply shuffled_trans; [exact Hsh|]. eapply shuffled_one; [| |exact Hsw]; lia.
  - rewrite Hl. repeat case_decide; subst; done.
  - intros k z Hk. rewrite Hl. repeat case_decide; subst; intros Hz.
    + eapply Ht; [|exact Hz]. lia.
    + lia.
    + eapply Ht; [|exact Hz]. lia.
  - intros k z Hk. rewrite Hl. repeat case_decide; subst; intros Hz; try lia.
    eapply Hf; [|exact Hz]. lia.
Qed.

Lemma partition_func_spec (a b pivot : nat) (data : list A) (p : A) :
  a <= pivot < b -> b <= length data -> data !! pivot = Some p ->
  exists mid flag data',
    partition_func Less a b pivot data = Some (mid, flag, data')
    /\ shuffled a b data data' /\ a <= mid < b /\ data' !! mid = Some p
    /\ range_all (fun x => R x p = true) a mid data'
    /\ range_all (fun x => R x p = false) (mid + 1) b data'.
Proof.
  intros Hpiv Hb Hp. unfold partition_func.
  destruct (Swap_Some data a pivot) as [d1 Hsw]; [lia..|].
  pose proof (Swap_inv _ _ _ _ Hsw) as (_ & _ & Hlen & _ & Hl).
  rewrite Hsw. simpl.
  assert (partition_inv data a b p (a + 1) (b - 1) d1) as Hinv.
  { split; [|split; [|split; [lia|split; [lia|split; [lia|split]]]]].
    - eapply shuffled_one; [| |exact Hsw]; lia.
    - rewrite Hl. repeat case_decide; subst; done.
    - intros k z Hk. lia.
    - intros k z Hk. lia. }
  destruct (partition_round _ _ _ _ _ _ _ Hinv)
    as (i2 & j2 & Hs1 & Hs2 & [(Hlt & Hinv' & Haj)|(Hle & d2 & Hsw2 & Hinv2 & _)]);
    rewrite Hs1; simpl; rewrite Hs2; simpl.
  - apply Nat.ltb_lt in Hlt as Hlt'. rewrite Hlt'.
    destruct (partition_finish _ _ _ _ _ _ Hinv' Haj) as (d' & -> & Hsh & Hm & Ht & Hf).
    simpl. exists j2, true, d'. destruct Hinv' as (_ & _ & _ & ? & _).
    repeat split; try done; lia.
  - assert ((j2 <? i2) = false) as -> by (apply Nat.ltb_ge; lia).
    rewrite Hsw2. simpl.
    destruct (loop_spec
      (fun '(i, j, d) => partition_inv data a b p i j d)
      (fun '(j, d) => partition_inv data a b p (j + 1) j d /\ a <= j)
      (fun '(i, j, d) => j + 1 - i)
      (fun '(i, j, data) =>
         i ← scan_less Less data a j i;
         j ← scan_not_less Less data a i j;
         if j <? i then Some (Break (j, data))
         else
           data ← Swap data i j;
           Some (Continue (i + 1, j - 1, data))))
      with (fuel := S (length d2)) (s := (i2 + 1, j2 - 1, d2))
      as ([j3 d3] & Hloop & Hinv3 & Haj3).
    + intros [[i j] d] Hi.
      destruct (partition_round _ _ _ _ _ _ _ Hi)
        as (i3 & j3 & Hs3 & Hs4 & [(Hlt & Hinv' & Haj)|(Hle' & d3 & Hsw3 & Hinv3 & Hm)]);
        rewrite Hs3; simpl; rewrite Hs4; simpl.
      * apply Nat.ltb_lt in Hlt as ->. eexists; split; [done|]. done.
      * assert ((j3 <? i3) = false) as -> by (apply Nat.ltb_ge; lia).
        rewrite Hsw3. simpl. eexists; split; [done|]. done.
    + done.
    + destruct Hinv2 as (_ & _ & ? & ? & ? & _). lia.
    + rewrite Hloop. simpl.
      destruct (partition_finish _ _ _ _ _ _ Hinv3 Haj3) as (d' & -> & Hsh & Hm & Ht & Hf).
      simpl. exists j3, false, d'. destruct Hinv3 as (_ & _ & _ & ? & _).
      repeat split; try done; lia.
Qed.

(** ** partitionEqual_func *)

Lemma partitionEqual_func_spec (a b pivot : nat) (data : list A) (p : A) :
  a <= pivot < b -> b <= length data -> data !! pivot = Some p ->
  exists mid data',
    partitionEqual_func Less a b pivot data = Some (mid, data')
    /\ shuffled a b data data' /\ a < mid <= b /\ data' !! a = Some p
    /\ range_all (fun x => R p x = false) (a + 1) mid data'
    /\ range_all (fun x => R p x = true) mid b data'.
Proof.
  intros Hpiv Hb Hp. unfold partitionEqual_func.
  destruct (Swap_Some data a pivot) as [d1 Hsw]; [lia..|].
  pose proof (Swap_inv _ _ _ _ Hsw) as (_ & _ & Hlen & _ & Hl).
  rewrite Hsw. simpl.
  destruct (loop_spec
    (fun '(i, j, d) =>
       shuffled a b data d /\ d !! a = Some p /\ a + 1 <= i <= j + 1 /\ j < b
       /\ b <= length d
       /\ range_all (fun x => R p x = false) (a + 1) i d
       /\ range_all (fun x => R p x = true) (j + 1) b d)
    (fun '(i, d) =>
       shuffled a b data d /\ a < i <= b /\ d !! a = Some p
       /\ range_all (fun x => R p x = false) (a + 1) i d
       /\ range_all (fun x => R p x = true) i b d)
    (fun '(i, j, d) => j + 1 - i)
    (fun '(i, j, data) =>
       i ← scan_not_greater Less data a j i;
       j ← scan_greater Less data a i j;
       if j <? i then Some (Break (i, data))
       else
         data ← Swap data i j;
         Some (Continue (i + 1, j - 1, data))))
    with (fuel := S (length d1)) (s := (a + 1, b - 1, d1))
    as ([mid d'] & Hloop & Hpost).
  - intros [[i j] d] (Hsh & Hpa & Hij & Hjb & Hbl & Hf & Ht).
    destruct (scan_not_greater_spec d a j i p) as (i2 & Hs1 & Hi2 & Hfi & Hstop);
      [done|lia|lia|].
    destruct (scan_greater_spec d a i2 j p) as (j2 & Hs2 & Hj2 & Hj2' & Htj & Hstop');
      [done|lia|lia|].
    rewrite Hs1; simpl; rewrite Hs2; simpl.
    assert (range_all (fun x => R p x = false) (a + 1) i2 d) as Hf2
      by (eapply range_all_join; eauto).
    assert (range_all (fun x => R p x = true) (j2 + 1) b d) as Ht2
      by (eapply range_all_join; eauto).
    destruct (j2 <? i2) eqn:Hlt.
    + apply Nat.ltb_lt in Hlt. eexists; split; [done|].
      assert (i2 = j2 + 1) as -> by lia.
      repeat split; try done; lia.
    + apply Nat.ltb_ge in Hlt.
      destruct Hstop as (x & Hx & HRx); [lia|].
      destruct Hstop' as (y & Hy & HRy); [lia|].
      assert (i2 <> j2) as Hne by (intros ->; simplify_eq; congruence).
      destruct (Swap_Some d i2 j2) as [d' Hsw']; [lia..|].
      pose proof (Swap_inv _ _ _ _ Hsw') as (_ & _ & Hlen' & _ & Hl').
      rewrite Hsw'. simpl. eexists; split; [done|]. split; [|lia].
      split; [|split; [|split; [lia|split; [lia|split; [lia|split]]]]].
      * eapply shuffled_trans; [exact Hsh|]. eapply shuffled_one; [| |exact Hsw']; lia.
      * rewrite Hl'. repeat case_decide; try lia. done.
      * intros k z Hk. rewrite Hl'. repeat case_decide; subst; intros Hz.
        -- lia.
        -- by simplify_eq.
        -- eapply Hf2; [|exact Hz]. lia.
      * intros k z Hk. rewrite Hl'. repeat case_decide; subst; intros Hz.
        -- by simplify_eq.
        -- lia.
        -- eapply Ht2; [|exact Hz]. lia.
  - split; [|split; [|split; [lia|split; [lia|split; [lia|split]]]]].
    + eapply shuffled_one; [| |exact Hsw]; lia.
    + rewrite Hl. repeat case_decide; subst; done.
    + intros k z Hk. lia.
    + intros k z Hk. lia.
  - lia.
  - rewrite Hloop. exists mid, d'. split; [done|].
    destruct Hpost as (? & ? & ? & ? & ?). done.
Qed.

(** ** partialInsertionSort_func

    Its shifting loop runs down to index 1, not to [a]: what stops it at
    [a] is the element left of the range, which no element of the range
    is less than. *)

Lemma shuffled_left_guard (a b a' b' : nat) (d d' : list A) :
  shuffled a' b' d d' -> a <= a' -> b' <= b ->
  left_guard a b d -> left_guard a b d'.
Proof.
  intros Hsh Ha Hb Hg e Ha0 He.
  assert (shuffled a b d d') as Hsh' by (eapply shuffled_mono; [| |exact Hsh]; lia).
  rewrite (shuffled_outside a b d d') in He by (done || lia).
  eapply shuffled_range_all; [exact Hsh'|]. by apply Hg.
Qed.

Lemma left_guard_mono (a b b' : nat) (d : list A) :
  b' <= b -> left_guard a b d -> left_guard a b' d.
Proof.
  intros Hb Hg e Ha He. eapply range_all_mono; [| |by apply Hg]; lia.
Qed.

Lemma shift_left_spec (a from : nat) (data : list A) :
  a <= from -> from < length data ->
  range_sorted a from data -> left_guard a (from + 1) data ->
  exists data',
    shift_left Less data from = Some data'
    /\ shuffled a (from + 1) data data' /\ range_sorted a (from + 1) data'.
Proof.
  intros Haf Hf Hsorted Hguard. unfold shift_left.
  apply (loop_spec
    (fun '(j, d) =>
       shuffled a (from + 1) data d /\ a <= j <= from /\
       (forall p q x y, a <= p -> p < q -> q <= from -> p <> j -> q <> j ->
          d !! p = Some x -> d !! q = Some y -> le x y) /\
       (forall q x y, j < q <= from -> d !! j = Some x -> d !! q = Some y -> le x y))
    (fun d => shuffled a (from + 1) data d /\ range_sorted a (from + 1) d)
    (fun '(j, d) => j));
    [|by repeat split; intros; first [lia|eauto using shuffled; eapply Hsorted; eauto; lia]|lia].
  intros [j d] (Hsh & Hj & Hs1 & Hs2).
  pose proof (shuffled_length _ _ _ _ Hsh) as Hlen.
  assert (range_sorted a (from + 1) d \/ a < j) as Hdone.
  { destruct (decide (a < j)); [by right|left].
    intros p q x' y' Hp Hpq Hq Hx' Hy'.
    destruct (decide (p = j)) as [->|Hpj].
    + eapply Hs2; [|eassumption|eassumption]. lia.
    + eapply Hs1; [| | | | |eassumption|eassumption]; lia. }
  destruct (1 <=? j) eqn:H1j.
  - apply Nat.leb_le in H1j.
    destruct (Less_by_Some d j (j - 1)) as (x & y & Hx & Hy & ->); [lia..|].
    simpl. destruct (R x y) eqn:HR; simpl.
    + assert (a < j) as Haj.
      { destruct (decide (a < j)) as [|Hn]; [done|]. exfalso.
        assert (j = a) as -> by lia.
        pose proof (shuffled_left_guard a (from + 1) a (from + 1) data d Hsh
                      (le_n _) (le_n _) Hguard y H1j Hy a x) as Hc.
        rewrite Hc in HR; [done|lia|done]. }
      destruct (Swap_Some d j (j - 1)) as [d' Hsw]; [lia..|].
      rewrite Hsw. simpl. eexists; split; [done|].
      pose proof (Swap_inv _ _ _ _ Hsw) as (_ & _ & _ & _ & Hl).
      split; [|lia]. split; [|split; [lia|split]].
      * eapply shuffled_trans; [exact Hsh|]. eapply shuffled_one; [| |exact Hsw]; lia.
      * intros p q x' y' Hp Hpq Hq Hpj Hqj. rewrite !Hl.
        repeat case_decide; subst; intros Hx' Hy'; simplify_eq;
          try lia; try (eapply Hs1; [| | | | |eassumption|eassumption]; lia).
      * intros q x' y' Hq. rewrite !Hl.
        repeat case_decide; subst; intros Hx' Hy'; simplify_eq; try lia.
        -- by apply R_le.
        -- eapply Hs2; [|eassumption|eassumption]. lia.
    + eexists; split; [done|]. split; [done|].
      destruct Hdone as [|Haj]; [done|].
      intros p q x' y' Hp Hpq Hq Hx' Hy'.
      destruct (decide (q = j)) as [->|Hqj].
      * simplify_eq. destruct (decide (p = j - 1)) as [->|Hpj].
        -- simplify_eq. by apply nR_le.
        -- eapply le_trans; [|apply nR_le; exact HR].
           eapply (Hs1 p (j - 1)); [| | | | |eassumption|eassumption]; lia.
      * destruct (decide (p = j)) as [->|Hpj].
        -- eapply Hs2; [|eassumption|eassumption]. lia.
        -- eapply Hs1; [| | | | |eassumption|eassumption]; lia.
  - apply Nat.leb_gt in H1j. eexists; split; [done|]. split; [done|].
    destruct Hdone as [|Haj]; [done|lia].
Qed.

Lemma shift_right_spec (i b : nat) (data : list A) :
  i + 1 <= b -> b <= length data ->
  exists data',
    shift_right Less data (i + 1) b = Some data'
    /\ shuffled i b data data'.
Proof.
  intros Hib Hb. unfold shift_right.
  apply (loop_spec
    (fun '(j, d) => shuffled i b data d /\ i + 1 <= j <= b)
    (fun d => shuffled i b data d)
    (fun '(j, d) => b - j)); [|split; [constructor|lia]|lia].
  intros [j d] (Hsh & Hj).
  pose proof (shuffled_length _ _ _ _ Hsh) as Hlen.
  destruct (j <? b) eqn:Hjb.
  - apply Nat.ltb_lt in Hjb.
    destruct (Less_by_Some d j (j - 1)) as (x & y & Hx & Hy & ->); [lia..|].
    simpl. destruct (R x y) eqn:HR; simpl.
    + destruct (Swap_Some d j (j - 1)) as [d' Hsw]; [lia..|].
      rewrite Hsw. simpl. eexists; split; [done|].
      split; [|lia]. split; [|lia].
      eapply shuffled_trans; [exact Hsh|]. eapply shuffled_one; [| |exact Hsw]; lia.
    + eexists; split; done.
  - eexists; split; done.
Qed.

Lemma scan_ordered_spec (a b i : nat) (data : list A) :
  a < i -> i <= b -> b <= length data -> range_sorted a i data ->
  exists i',
    scan_ordered Less data b i = Some i'
    /\ i <= i' <= b /\ range_sorted a i' data.
Proof.
  intros Hai Hib Hb Hsorted. unfold scan_ordered.
  apply (loop_spec
    (fun i1 => i <= i1 <= b /\ range_sorted a i1 data)
    (fun i' => i <= i' <= b /\ range_sorted a i' data)
    (fun i1 => b - i1)); [|split; [lia|done]|lia].
  intros i1 [Hi1 Hs]. destruct (i1 <? b) eqn:Hlt.
  - apply Nat.ltb_lt in Hlt.
    destruct (Less_by_Some data i1 (i1 - 1)) as (x & y & Hx & Hy & ->); [lia..|].
    simpl. destruct (R x y) eqn:HR; (eexists; split; [done|]); [done|].
    split; [|lia]. split; [lia|].
    intros p q x' y' Hp Hpq Hq Hx' Hy'.
    destruct (decide (q = i1)) as [->|Hq1].
    + simplify_eq. destruct (decide (p = i1 - 1)) as [->|Hp1].
      * simplify_eq. by apply nR_le.
      * eapply le_trans; [|apply nR_le; exact HR].
        eapply (Hs p (i1 - 1)); [| | |eassumption|eassumption]; lia.
    + eapply Hs; [| | |eassumption|eassumption]; lia.
  - eexists; split; done.
Qed.

Lemma partialInsertionSort_func_spec (a b : nat) (data : list A) :
  a < b -> b <= length data -> left_guard a b data ->
  exists flag data',
    partialInsertionSort_func Less a b data = Some (flag, data')
    /\ shuffled a b data data'
    /\ (flag = true -> range_sorted a b data').
Proof.
  intros Hab Hb Hguard. unfold partialInsertionSort_func.
  destruct (loop_spec
    (fun '(j, i, d) =>
       shuffled a b data d /\ a + 1 <= i <= b /\ range_sorted a i d /\ j <= 5)
    (fun '(flag, d) =>
       shuffled a b data d /\ (flag = true -> range_sorted a b d))
    (fun '(j, i, d) => 5 - j)
    (fun '(j, i, data) =>
      if j <? 5 then
        i ← scan_ordered Less data b i;
        if i =? b then Some (Break (true, data))
        else if b - a <? 50 then Some (Break (false, data))
        else
          data ← Swap data i (i - 1);
          data ← (if 2 <=? i - a then shift_left Less data (i - 1)
                  else Some data);
          data ← (if 2 <=? b - i then shift_right Less data (i + 1) b
                  else Some data);
          Some (Continue (j + 1, i, data))
      else Some (Break (false, data))))
    with (fuel := 6) (s := (0, a + 1, data)) as ([flag d'] & Hloop & Hpost).
  - intros [[j i] d] (Hsh & Hi & Hs & Hj5).
    pose proof (shuffled_length _ _ _ _ Hsh) as Hlen.
    destruct (j <? 5) eqn:Hj; [|eexists; split; [done|]; split; [done|done]].
    apply Nat.ltb_lt in Hj.
    destruct (scan_ordered_spec a b i d) as (i2 & Hsc & Hi2 & Hs2); [lia|lia|lia|done|].
    rewrite Hsc. simpl.
    destruct (i2 =? b) eqn:Hib.
    { apply Nat.eqb_eq in Hib as ->. eexists; split; [done|]. done. }
    apply Nat.eqb_neq in Hib.
    destruct (b - a <? 50); [eexists; split; [done|]; split; [done|done]|].
    destruct (Swap_Some d i2 (i2 - 1)) as [d2 Hsw]; [lia..|].
    pose proof (Swap_inv _ _ _ _ Hsw) as (_ & _ & Hlen2 & _ & Hl2).
    rewrite Hsw. simpl.
    assert (shuffled a b data d2) as Hsh2.
    { eapply shuffled_trans; [exact Hsh|]. eapply shuffled_one; [| |exact Hsw]; lia. }
    assert (range_sorted a (i2 - 1) d2) as Hs2'.
    { intros p q x y Hp Hpq Hq. rewrite !Hl2. repeat case_decide; try lia.
      apply Hs2; lia. }
    assert (exists d3,
      (if 2 <=? i2 - a then shift_left Less d2 (i2 - 1) else Some d2) = Some d3
      /\ shuffled a b data d3 /\ range_sorted a i2 d3) as (d3 & -> & Hsh3 & Hs3).
    { destruct (2 <=? i2 - a) eqn:H2.
      - apply Nat.leb_le in H2.
        destruct (shift_left_spec a (i2 - 1) d2) as (d3 & Hsl & Hsh3 & Hs3);
          [lia|lia|done| |].
        + eapply left_guard_mono; [|eapply shuffled_left_guard; [exact Hsh2| | |exact Hguard]]; lia.
        + exists d3. split; [done|]. split.
          * eapply shuffled_trans; [exact Hsh2|].
            eapply shuffled_mono; [| |exact Hsh3]; lia.
          * by replace (i2 - 1 + 1) with i2 in Hs3 by lia.
      - apply Nat.leb_gt in H2. exists d2. split; [done|]. split; [done|].
        intros p q x y Hp Hpq Hq. lia. }
    simpl.
    pose proof (shuffled_length _ _ _ _ Hsh3) as Hlen3.
    assert (exists d4,
      (if 2 <=? b - i2 then shift_right Less d3 (i2 + 1) b else Some d3) = Some d4
      /\ shuffled a b data d4 /\ range_sorted a i2 d4) as (d4 & -> & Hsh4 & Hs4).
    { destruct (2 <=? b - i2) eqn:H2.
      - apply Nat.leb_le in H2.
        destruct (shift_right_spec i2 b d3) as (d4 & Hsr & Hsh4); [lia|lia|].
        exists d4. split; [done|]. split.
        + eapply shuffled_trans; [exact Hsh3|].
          eapply shuffled_mono; [| |exact Hsh4]; lia.
        + eapply shuffled_range_sorted_outside; [exact Hsh4| |done]. lia.
      - exists d3. done. }
    simpl. eexists; split; [done|]. split; [|lia]. repeat split; try done; lia.
  - repeat split; [constructor|lia|lia| |lia].
    intros p q x y Hp Hpq Hq. lia.
  - lia.
  - rewrite Hloop. exists flag, d'. split; [done|]. done.
Qed.

(** ** choosePivot_func, breakPatterns_func, reverseRange_func *)

Lemma order2_func_spec (data : list A) (a b swaps : nat) :
  a < length data -> b < length data ->
  exists a' b' swaps',
    order2_func Less data a b swaps = Some (a', b', swaps')
    /\ (a' = a /\ b' = b \/ a' = b /\ b' = a).
Proof.
  intros Ha Hb. unfold order2_func.
  destruct (Less_by_Some data b a) as (x & y & _ & _ & ->); [done..|].
  simpl. destruct (R x y); eauto 10.
Qed.

Lemma median_func_spec (data : list A) (a b c swaps : nat) :
  a < length data -> b < length data -> c < length data ->
  exists m swaps',
    median_func Less data a b c swaps = Some (m, swaps')
    /\ (m = a \/ m = b \/ m = c).
Proof.
  intros Ha Hb Hc. unfold median_func.
  destruct (order2_func_spec data a b swaps) as (a1 & b1 & s1 & -> & H1); [done..|].
  simpl.
  destruct (order2_func_spec data b1 c s1) as (b2 & c2 & s2 & -> & H2); [lia..|].
  simpl.
  destruct (order2_func_spec data a1 b2 s2) as (a3 & b3 & s3 & -> & H3); [lia..|].
  simpl. exists b3, s3. split; [done|]. lia.
Qed.

Lemma choosePivot_func_spec (a b : nat) (data : list A) :
  a < b -> b <= length data ->
  exists pivot hint,
    choosePivot_func Less a b data = Some (pivot, hint)
    /\ a <= pivot < b.
Proof.
  intros Hab Hb. unfold choosePivot_func.
  pose proof (Nat.div_mod_eq (b - a) 4) as Hdiv.
  pose proof (Nat.mod_upper_bound (b - a) 4) as Hmod.
  set (q := (b - a) / 4) in *.
  destruct (8 <=? b - a) eqn:H8.
  - apply Nat.leb_le in H8.
    assert (exists i j k swaps,
      (if 50 <=? b - a then
         r ← medianAdjacent_func Less data (a + q * 1) 0;
         let '(i, swaps) := r in
         r ← medianAdjacent_func Less data (a + q * 2) swaps;
         let '(j, swaps) := r in
         r ← medianAdjacent_func Less data (a + q * 3) swaps;
         let '(k, swaps) := r in
         Some (i, j, k, swaps)
       else Some (a + q * 1, a + q * 2, a + q * 3, 0)) = Some (i, j, k, swaps)
      /\ a <= i < b /\ a <= j < b /\ a <= k < b) as (i & j & k & sw & -> & Hi & Hj & Hk).
    { destruct (50 <=? b - a) eqn:H50.
      - apply Nat.leb_le in H50. unfold medianAdjacent_func.
        destruct (median_func_spec data (a + q * 1 - 1) (a + q * 1) (a + q * 1 + 1) 0)
          as (i & s1 & -> & Hi); [lia..|]. simpl.
        destruct (median_func_spec data (a + q * 2 - 1) (a + q * 2) (a + q * 2 + 1) s1)
          as (j & s2 & -> & Hj); [lia..|]. simpl.
        destruct (median_func_spec data (a + q * 3 - 1) (a + q * 3) (a + q * 3 + 1) s2)
          as (k & s3 & -> & Hk); [lia..|]. simpl.
        exists i, j, k, s3. split; [done|]. lia.
      - exists (a + q * 1), (a + q * 2), (a + q * 3), 0. split; [done|]. lia. }
    simpl.
    destruct (median_func_spec data i j k sw) as (m & s' & -> & Hm); [lia..|].
    simpl. eexists _, _. split; [done|]. lia.
  - apply Nat.leb_gt in H8. simpl. eexists _, _. split; [done|]. lia.
Qed.

Lemma land_mask_lt (x : N) (n : nat) :
  (N.to_nat (N.land x (nextPowerOfTwo n - 1)) < 2 * n \/ n = 0)%nat.
Proof.
  destruct n as [|n]; [by right|left].
  unfold nextPowerOfTwo, bits_Len.
  rewrite N.shiftl_1_l, N.sub_1_r, <- N.ones_equiv, N.land_ones.
  pose proof (Nat.log2_spec (S n) ltac:(lia)) as [Hlo _].
  assert (2 ^ N.of_nat (S (Nat.log2 (S n))) = N.of_nat (2 * 2 ^ Nat.log2 (S n)))%N as Hpow.
  { rewrite Nat2N.inj_mul, Nat2N.inj_pow, Nat2N.inj_succ, N.pow_succ_r'. done. }
  pose proof (N.mod_upper_bound x (2 ^ N.of_nat (S (Nat.log2 (S n))))
                ltac:(rewrite Hpow; lia)) as Hlt.
  rewrite Hpow in Hlt |- *. lia.
Qed.

Lemma breakPatterns_func_spec (a b : nat) (data : list A) :
  a <= b -> b <= length data ->
  exists data',
    breakPatterns_func a b data = Some data' /\ shuffled a b data data'.
Proof.
  intros Hab Hb. unfold breakPatterns_func.
  destruct (8 <=? b - a) eqn:H8; [|exists data; split; [done|constructor]].
  apply Nat.leb_le in H8.
  pose proof (Nat.div_mod_eq (b - a) 4) as Hdiv.
  pose proof (Nat.mod_upper_bound (b - a) 4) as Hmod.
  set (q := (b - a) / 4) in *.
  match goal with
  | |- context [for_each ?c ?body ?s0] =>
      destruct (fun Hstep => for_each_spec
        (fun (k : nat) '(random, d) => shuffled a b data d) c body Hstep s0)
        as ([r d'] & Hf & Hsh)
  end.
  - intros k i [random d] Hk Hsh.
    pose proof (shuffled_length _ _ _ _ Hsh) as Hlen.
    assert (i <= 2) as Hi2.
    { destruct k as [|[|[|k]]]; simpl in Hk; simplify_eq; lia. }
    cbv zeta.
    set (o := N.to_nat (N.land (xorshift_Next random) (nextPowerOfTwo (b - a) - 1))).
    assert (o < 2 * (b - a)) as Ho.
    { destruct (land_mask_lt (xorshift_Next random) (b - a)) as [Hlt|]; [exact Hlt|lia]. }
    set (o' := if b - a <=? o then o - (b - a) else o).
    assert (o' < b - a) as Ho'.
    { unfold o'. destruct (b - a <=? o) eqn:Hle;
        [apply Nat.leb_le in Hle|apply Nat.leb_gt in Hle]; lia. }
    destruct (Swap_Some d (a + q * 2 - 1 - 1 + i) (a + o')) as [d1 Hsw]; [lia..|].
    rewrite Hsw. simpl. eexists; split; [done|]. simpl.
    eapply shuffled_trans; [exact Hsh|]. eapply shuffled_one; [| |exact Hsw]; lia.
  - constructor.
  - rewrite Hf. simpl. exists d'. done.
Qed.

Lemma reverseRange_func_spec (a b : nat) (data : list A) :
  a < b -> b <= length data ->
  exists data',
    reverseRange_func a b data = Some data' /\ shuffled a b data data'.
Proof.
  intros Hab Hb. unfold reverseRange_func.
  apply (loop_spec
    (fun '(i, j, d) => shuffled a b data d /\ a <= i /\ j < b)
    (fun d => shuffled a b data d)
    (fun '(i, j, d) => j + 1 - i)); [|repeat split; [constructor|lia..]|lia].
  intros [[i j] d] (Hsh & Hi & Hj).
  pose proof (shuffled_length _ _ _ _ Hsh) as Hlen.
  destruct (i <? j) eqn:Hij.
  - apply Nat.ltb_lt in Hij.
    destruct (Swap_Some d i j) as [d1 Hsw]; [lia..|].
    rewrite Hsw. simpl. eexists; split; [done|]. split; [|lia].
    split; [|lia].
    eapply shuffled_trans; [exact Hsh|]. eapply shuffled_one; [| |exact Hsw]; lia.
  - eexists; split; done.
Qed.

(** ** heapSort_func *)

Lemma parent_spec (c : nat) : 0 < c -> 2 * parent c + 1 <= c <= 2 * parent c + 2.
Proof.
  intros Hc. unfold parent.
  pose proof (Nat.div_mod_eq (c - 1) 2). pose proof (Nat.mod_upper_bound (c - 1) 2).
  lia.
Qed.

Lemma siftDown_func_spec (lo hi first : nat) (data : list A) :
  first + hi <= length data ->
  heap_from first (lo + 1) hi data ->
  exists data',
    siftDown_func Less lo hi first data = Some data'
    /\ shuffled (first + lo) (first + hi) data data'
    /\ heap_from first lo hi data'.
Proof.
  intros Hhi Hheap. unfold siftDown_func.
  apply (loop_spec
    (fun '(root, d) =>
       shuffled (first + lo) (first + hi) data d /\ lo <= root /\
       (forall c x y, 0 < c -> c < hi -> lo <= parent c -> parent c <> root ->
          d !! (first + c) = Some x -> d !! (first + parent c) = Some y -> le x y) /\
       (lo < root ->
        forall c x y, 0 < c -> c < hi -> parent c = root ->
          d !! (first + c) = Some x -> d !! (first + parent root) = Some y -> le x y))
    (fun d => shuffled (first + lo) (first + hi) data d /\ heap_from first lo hi d)
    (fun '(root, d) => hi - root)); [| |lia].
  - intros [root d] (Hsh & Hroot & H1 & H2).
    pose proof (shuffled_length _ _ _ _ Hsh) as Hlen.
    destruct (hi <=? 2 * root + 1) eqn:Hchild.
    { apply Nat.leb_le in Hchild. eexists; split; [done|]. split; [done|].
      intros c x y Hc0 Hc Hpar. apply H1; try done.
      pose proof (parent_spec c Hc0). lia. }
    apply Nat.leb_gt in Hchild.
    assert (exists child xc,
      (if 2 * root + 1 + 1 <? hi then
         lt ← Less d (first + (2 * root + 1)) (first + (2 * root + 1) + 1);
         Some (if lt : bool then 2 * root + 1 + 1 else 2 * root + 1)
       else Some (2 * root + 1)) = Some child
      /\ (child = 2 * root + 1 \/ child = 2 * root + 2) /\ child < hi
      /\ d !! (first + child) = Some xc
      /\ forall c x, c < hi -> parent c = root -> 0 < c ->
           d !! (first + c) = Some x -> le x xc) as (child & xc & -> & Hch & Hchi & Hxc & Hmax).
    { destruct (2 * root + 1 + 1 <? hi) eqn:H2c.
      - apply Nat.ltb_lt in H2c.
        destruct (Less_by_Some d (first + (2 * root + 1)) (first + (2 * root + 1) + 1))
          as (x1 & x2 & Hx1 & Hx2 & ->); [lia..|].
        simpl. destruct (R x1 x2) eqn:HR.
        + exists (2 * root + 1 + 1), x2. split; [done|]. split; [lia|]. split; [lia|].
          split; [by replace (first + (2 * root + 1 + 1)) with (first + (2 * root + 1) + 1) by lia|].
          intros c x Hc Hp Hc0 Hx. pose proof (parent_spec c Hc0).
          destruct (decide (c = 2 * root + 1)) as [->|].
          * simplify_eq. by apply R_le.
          * replace (first + c) with (first + (2 * root + 1) + 1) in Hx by lia.
            simplify_eq. apply le_refl.
        + exists (2 * root + 1), x1. split; [done|]. split; [lia|]. split; [lia|].
          split; [done|].
          intros c x Hc Hp Hc0 Hx. pose proof (parent_spec c Hc0).
          destruct (decide (c = 2 * root + 1)) as [->|].
          * simplify_eq. apply le_refl.
          * replace (first + c) with (first + (2 * root + 1) + 1) in Hx by lia.
            simplify_eq. by apply nR_le.
      - apply Nat.ltb_ge in H2c.
        destruct (lookup_lt_is_Some_2 d (first + (2 * root + 1))) as [x1 Hx1]; [lia|].
        exists (2 * root + 1), x1. split; [done|]. split; [lia|]. split; [lia|].
        split; [done|].
        intros c x Hc Hp Hc0 Hx. pose proof (parent_spec c Hc0).
        assert (c = 2 * root + 1) as -> by lia. simplify_eq. apply le_refl. }
    simpl.
    destruct (lookup_lt_is_Some_2 d (first + root)) as [xr Hxr]; [lia|].
    rewrite (Less_by_lookup _ _ _ _ _ Hxr Hxc). simpl.
    assert (parent child = root) as Hpc.
    { pose proof (parent_spec child ltac:(lia)). lia. }
    destruct (R xr xc) eqn:HR; simpl.
    + destruct (Swap_Some d (first + root) (first + child)) as [d2 Hsw]; [lia..|].
      pose proof (Swap_inv _ _ _ _ Hsw) as (_ & _ & _ & _ & Hl).
      rewrite Hsw. simpl. eexists; split; [done|]. simpl. split; [|lia].
      split; [|split; [lia|split]].
      * eapply shuffled_trans; [exact Hsh|]. eapply shuffled_one; [| |exact Hsw]; lia.
      * intros c x y Hc0 Hc Hpar Hne. rewrite !Hl.
        pose proof (parent_spec c Hc0) as Hps.
        subst root.
        repeat case_decide; intros Hx Hy; simplify_eq; try lia.
        -- by apply R_le.
        -- assert (c = parent child) as -> by lia.
           eapply (H2 ltac:(lia) child); [lia|lia|done|done|done].
        -- assert (parent c = parent child) as Hpr by lia.
           eapply Hmax; [|exact Hpr| |exact Hx]; lia.
        -- apply (H1 c); try done. lia.
      * intros _ c x y Hc0 Hc Hpar. rewrite !Hl.
        pose proof (parent_spec c Hc0) as Hps. subst root.
        repeat case_decide; intros Hx Hy; simplify_eq; try lia.
        apply (H1 c); first [done|lia].
    + eexists; split; [done|]. split; [done|].
      intros c x y Hc0 Hc Hpar Hx Hy.
      destruct (decide (parent c = root)) as [Hpr|Hpr].
      * rewrite Hpr in Hy. simplify_eq.
        eapply le_trans; [|apply nR_le; exact HR].
        eapply Hmax; [|done| |exact Hx]; lia.
      * by apply (H1 c).
  - split; [constructor|]. split; [lia|]. split.
    + intros c x y Hc0 Hc Hpar Hne. apply Hheap; try done. lia.
    + lia.
Qed.

Lemma lookup_rev_seq (m k i : nat) :
  rev (seq 0 m) !! k = Some i -> i = m - 1 - k /\ k < m.
Proof.
  rewrite rev_alt. change (rev_append (seq 0 m) []) with (reverse (seq 0 m)).
  rewrite reverse_lookup_Some, length_seq. intros [Hl Hk].
  apply lookup_seq in Hl as [-> _]. lia.
Qed.

(** The root of a heap is its greatest element. *)
Lemma heap_root_max (first m : nat) (d : list A) (r : A) :
  heap_from first 0 m d -> first + m <= length d -> d !! first = Some r ->
  forall c x, c < m -> d !! (first + c) = Some x -> le x r.
Proof.
  intros Hheap Hm Hr c. induction c as [c IH] using lt_wf_ind. intros x Hc Hx.
  destruct (decide (c = 0)) as [->|Hc0].
  - rewrite Nat.add_0_r in Hx. simplify_eq. apply le_refl.
  - pose proof (parent_spec c ltac:(lia)) as Hps.
    destruct (lookup_lt_is_Some_2 d (first + parent c)) as [y Hy]; [lia|].
    eapply le_trans.
    + eapply (Hheap c); [lia|lia|lia|exact Hx|exact Hy].
    + eapply (IH (parent c)); [lia|lia|exact Hy].
Qed.

Lemma heapSort_func_spec (a b : nat) (data : list A) :
  a <= b -> b <= length data ->
  exists data',
    heapSort_func Less a b data = Some data'
    /\ shuffled a b data data' /\ range_sorted a b data'.
Proof.
  intros Hab Hb. unfold heapSort_func. cbv zeta.
  set (hi := b - a). set (n := (hi - 1) / 2).
  assert (a + hi = b) as Hhi by (unfold hi; lia).
  pose proof (Nat.div_mod_eq (hi - 1) 2) as Hdiv.
  pose proof (Nat.mod_upper_bound (hi - 1) 2) as Hmod.
  fold n in Hdiv.
  (* building the heap *)
  match goal with
  | |- context [for_each ?c ?body data] =>
      destruct (fun Hstep => for_each_spec
        (fun k d => shuffled a b data d /\ heap_from a (n + 1 - k) hi d)
        c body Hstep data) as (d1 & Hf1 & Hsh1 & Hheap1)
  end.
  { intros k i d Hk [Hsh Hheap].
    apply lookup_rev_seq in Hk as [-> Hk].
    pose proof (shuffled_length _ _ _ _ Hsh) as Hlen.
    destruct (siftDown_func_spec (n + 1 - 1 - k) hi a d) as (d' & Hs & Hsh' & Hheap');
      [lia| |].
    - by replace (n + 1 - 1 - k + 1) with (n + 1 - k) by lia.
    - exists d'. split; [done|]. split.
      + eapply shuffled_trans; [exact Hsh|]. eapply shuffled_mono; [| |exact Hsh']; lia.
      + by replace (n + 1 - (k + 1)) with (n + 1 - 1 - k) by lia. }
  { split; [constructor|]. intros c x y Hc0 Hc Hpar.
    pose proof (parent_spec c Hc0). lia. }
  rewrite Hf1. simpl.
  rewrite length_rev, length_seq in Hheap1.
  replace (n + 1 - (n + 1)) with 0 in Hheap1 by lia.
  (* popping the elements, largest first *)
  match goal with
  | |- context [for_each ?c ?body d1] =>
      destruct (fun Hstep => for_each_spec
        (fun k d =>
           shuffled a b data d /\ heap_from a 0 (hi - k) d
           /\ range_sorted (a + (hi - k)) b d
           /\ (forall p q x y, a <= p < a + (hi - k) -> a + (hi - k) <= q < b ->
                 d !! p = Some x -> d !! q = Some y -> le x y))
        c body Hstep d1) as (d2 & Hf2 & Hsh2 & _ & Hsorted & _)
  end.
  { intros k i d Hk (Hsh & Hheap & Hs & Hbound).
    apply lookup_rev_seq in Hk as [-> Hk].
    pose proof (shuffled_length _ _ _ _ Hsh) as Hlen.
    set (i := hi - 1 - k) in *.
    assert (hi - k = i + 1) as Hik by (unfold i; lia). rewrite Hik in *.
    replace (hi - (k + 1)) with i by (unfold i; lia).
    destruct (Swap_Some d a (a + i)) as [d' Hsw]; [lia..|].
    pose proof (Swap_inv _ _ _ _ Hsw) as (_ & _ & Hlen' & _ & Hl).
    rewrite Hsw. simpl.
    destruct (lookup_lt_is_Some_2 d a) as [r Hr]; [lia|].
    pose proof (heap_root_max a (i + 1) d r Hheap ltac:(lia) Hr) as Hmax.
    destruct (siftDown_func_spec 0 i a d') as (d3 & Hsd & Hsh3 & Hheap3); [lia| |].
    { intros c x y Hc0 Hc Hpar. rewrite !Hl.
      pose proof (parent_spec c Hc0).
      repeat case_decide; try lia. apply Hheap; lia. }
    rewrite Nat.add_0_r in Hsh3.
    exists d3. split; [done|]. split; [|split; [done|split]].
    - eapply shuffled_trans; [exact Hsh|]. eapply shuffled_trans.
      + eapply shuffled_one; [| |exact Hsw]; lia.
      + eapply shuffled_mono; [| |exact Hsh3]; lia.
    - intros p q x y Hp Hpq Hq.
      rewrite !(shuffled_outside a (a + i) d' d3) by (done || lia).
      rewrite !Hl. repeat case_decide; try lia; intros Hx Hy.
      + simplify_eq. eapply (Hbound a q); [lia|lia|done|done].
      + eapply (Hs p q); [lia|lia|lia|done|done].
    - assert (range_all (fun x => forall q y, a + i <= q < b ->
                d' !! q = Some y -> le x y) a (a + i) d3) as Hall.
      { eapply shuffled_range_all; [exact Hsh3|].
        intros p x Hp Hx q y Hq. revert Hx. rewrite !Hl.
        repeat case_decide; try lia; intros Hx Hy.
        - assert (y = r) as -> by congruence. eapply (Hmax i); [lia|done].
        - eapply (Hbound (a + i) q); [lia|lia|done|done].
        - assert (y = r) as -> by congruence.
          eapply (Hmax (p - a)); [lia|]. by replace (a + (p - a)) with p by lia.
        - eapply (Hbound p q); [lia|lia|done|done]. }
      intros p q x y Hp Hq Hx.
      rewrite (shuffled_outside a (a + i) d' d3) by (done || lia).
      eapply Hall; [|exact Hx|]; lia. }
  { rewrite Nat.sub_0_r. split; [done|]. split; [done|]. split.
    - intros p q x y Hp Hpq Hq. lia.
    - intros p q x y Hp Hq. lia. }
  rewrite length_rev, length_seq, Nat.sub_diag, Nat.add_0_r in Hsorted.
  exists d2. done.
Qed.

(** ** pdqsort_func *)

Lemma left_guard_stable (a b : nat) (d d' : list A) :
  (forall k, a - 1 <= k < b -> d' !! k = d !! k) ->
  left_guard a b d -> left_guard a b d'.
Proof.
  intros Hst Hg e Ha He i x Hi Hx.
  rewrite Hst in He, Hx by lia. eapply Hg; eauto.
Qed.

Lemma range_all_stable (P : A -> Prop) (a b : nat) (d d' : list A) :
  (forall k, a <= k < b -> d' !! k = d !! k) ->
  range_all P a b d -> range_all P a b d'.
Proof. intros Hst Hall i x Hi Hx. rewrite Hst in Hx by lia. eapply Hall; eauto. Qed.

Lemma range_sorted_join (a mid b : nat) (d : list A) (p : A) :
  d !! mid = Some p ->
  range_sorted a mid d -> range_sorted (mid + 1) b d ->
  range_all (fun x => le x p) a mid d ->
  range_all (fun x => le p x) (mid + 1) b d ->
  range_sorted a b d.
Proof.
  intros Hp Hl Hr Hlp Hpr i j x y Hi Hij Hj Hx Hy.
  destruct (decide (j < mid)); [eapply Hl; [| | |exact Hx|exact Hy]; lia|].
  destruct (decide (mid < i)); [eapply Hr; [| | |exact Hx|exact Hy]; lia|].
  assert (le x p) as Hxp.
  { destruct (decide (i = mid)) as [->|]; [simplify_eq; apply le_refl|].
    eapply Hlp; [|exact Hx]. lia. }
  assert (le p y) as Hpy.
  { destruct (decide (j = mid)) as [->|]; [simplify_eq; apply le_refl|].
    eapply Hpr; [|exact Hy]. lia. }
  eauto.
Qed.

Lemma pdqsort_func_spec (fuel : nat) :
  forall (a b limit : nat) (wB wP : bool) (data : list A),
  a <= b -> b <= length data -> b - a < fuel -> left_guard a b data ->
  exists data',
    pdqsort_func Less fuel a b limit wB wP data = Some data'
    /\ shuffled a b data data' /\ range_sorted a b data'.
Proof.
  induction fuel as [|fuel IH]; intros a b limit wB wP data Hab Hb Hfuel Hguard; [lia|].
  simpl.
  destruct (b - a <=? 12) eqn:H12; [by apply insertionSort_func_spec|].
  apply Nat.leb_gt in H12.
  destruct (limit =? 0); [by apply heapSort_func_spec|].
  (* breakPatterns *)
  match goal with
  | |- context [if negb wB then ?x else ?y] =>
      assert (exists d1 l1, (if negb wB then x else y) = Some (d1, l1)
                /\ shuffled a b data d1) as (d1 & l1 & -> & Hsh1)
  end.
  { destruct wB; simpl; [exists data, limit; split; [done|constructor]|].
    destruct (breakPatterns_func_spec a b data) as (d1 & -> & Hsh1); [lia|lia|].
    simpl. eauto. }
  simpl. pose proof (shuffled_length _ _ _ _ Hsh1) as Hlen1.
  (* choosePivot, and the reversal of a decreasing range *)
  destruct (choosePivot_func_spec a b d1) as (pivot & hint & -> & Hpivot); [lia|lia|].
  simpl.
  match goal with
  | |- context [if sortedHint_eqb hint decreasingHint then ?x else ?y] =>
      assert (exists d2 pivot2 hint2,
                (if sortedHint_eqb hint decreasingHint then x else y)
                = Some (d2, pivot2, hint2)
                /\ shuffled a b data d2 /\ a <= pivot2 < b)
        as (d2 & pivot2 & hint2 & -> & Hsh2 & Hpivot2)
  end.
  { destruct (sortedHint_eqb hint decreasingHint).
    - destruct (reverseRange_func_spec a b d1) as (d2 & -> & Hsh2); [lia|lia|].
      simpl. eexists _, _, _. split; [done|]. split; [|lia].
      eapply shuffled_trans; eauto.
    - eexists _, _, _. split; [done|]. done. }
  simpl. pose proof (shuffled_length _ _ _ _ Hsh2) as Hlen2.
  (* partialInsertionSort *)
  match goal with
  | |- context [if wB && wP && sortedHint_eqb hint2 increasingHint then ?x else ?y] =>
      assert (exists flag d3,
                (if wB && wP && sortedHint_eqb hint2 increasingHint then x else y)
                = Some (flag, d3)
                /\ shuffled a b data d3 /\ (flag = true -> range_sorted a b d3))
        as (flag & d3 & -> & Hsh3 & Hsorted3)
  end.
  { destruct (wB && wP && sortedHint_eqb hint2 increasingHint).
    - destruct (partialInsertionSort_func_spec a b d2) as (flag & d3 & -> & Hsh3 & Hs3);
        [lia|lia| |].
      + eapply shuffled_left_guard; [exact Hsh2| | |exact Hguard]; lia.
      + exists flag, d3. split; [done|]. split; [|done].
        eapply shuffled_trans; eauto.
    - exists false, d2. split; [done|]. split; [done|]. done. }
  simpl. destruct flag; [exists d3; split; [done|]; split; [done|]; by apply Hsorted3|].
  clear Hsorted3.
  pose proof (shuffled_length _ _ _ _ Hsh3) as Hlen3.
  assert (left_guard a b d3) as Hguard3
    by (eapply shuffled_left_guard; [exact Hsh3| | |exact Hguard]; lia).
  destruct (lookup_lt_is_Some_2 d3 pivot2) as [p Hp]; [lia|].
  (* the pivot against the element left of the range *)
  match goal with
  | |- context [if 0 <? a then ?x else ?y] =>
      assert (exists equal, (if 0 <? a then x else y) = Some equal
                /\ (equal = true ->
                    exists e0, 0 < a /\ d3 !! (a - 1) = Some e0 /\ R e0 p = false))
        as (equal & -> & Hequal)
  end.
  { destruct (0 <? a) eqn:Ha0.
    - apply Nat.ltb_lt in Ha0.
      destruct (lookup_lt_is_Some_2 d3 (a - 1)) as [e0 He0]; [lia|].
      rewrite (Less_by_lookup _ _ _ _ _ He0 Hp). simpl. eexists; split; [done|].
      intros Hn. apply negb_true_iff in Hn. eauto.
    - exists false. split; [done|]. done. }
  simpl. destruct equal.
  - (* partitionEqual: the pivot is a least element of the range *)
    destruct Hequal as (e0 & Ha0 & He0 & HRe0); [done|].
    destruct (partitionEqual_func_spec a b pivot2 d3 p)
      as (mid & d4 & -> & Hsh4 & Hmid & Hpa & Hf4 & Ht4); [lia|lia|done|].
    simpl. pose proof (shuffled_length _ _ _ _ Hsh4) as Hlen4.
    assert (left_guard a b d4) as Hguard4
      by (eapply shuffled_left_guard; [exact Hsh4| | |exact Hguard3]; lia).
    assert (d4 !! (a - 1) = Some e0) as He4
      by (rewrite (shuffled_outside a b d3 d4) by (done || lia); done).
    assert (range_all (fun x => R x e0 = false) a b d4) as Hge4 by (by apply Hguard4).
    assert (R p e0 = false) as HRpe by (eapply (Hge4 a); [lia|done]).
    assert (range_all (fun y => le p y) a b d4) as Hmin4.
    { intros i y Hi Hy. eapply le_trans; [apply nR_le; exact HRe0|].
      apply nR_le. eapply Hge4; eauto. }
    destruct (IH mid b l1 wB wP d4) as (d5 & -> & Hsh5 & Hs5); [lia|lia|lia| |].
    { intros e Hm0 He i x Hi Hx.
      assert (R p x = true) as HRpx by (eapply Ht4; [|exact Hx]; lia).
      destruct (decide (mid - 1 = a)) as [Hma|Hma].
      - rewrite Hma in He. simplify_eq.
        rewrite (R_incomparable e0 p x HRe0 HRpe). eapply Hge4; [|exact Hx]. lia.
      - assert (R p e = false) as HRpe' by (eapply Hf4; [|exact He]; lia).
        destruct (R x e) eqn:HRxe; [|done].
        rewrite (R_trans _ _ _ HRpx HRxe) in HRpe'. done. }
    exists d5. split; [done|]. split.
    { eapply shuffled_trans; [exact Hsh3|]. eapply shuffled_trans; [exact Hsh4|].
      eapply shuffled_mono; [| |exact Hsh5]; lia. }
    assert (range_all (fun y => le p y) a b d5) as Hmin5.
    { eapply shuffled_range_all; [|exact Hmin4].
      eapply shuffled_mono; [| |exact Hsh5]; lia. }
    intros i j x y Hi Hij Hj Hx Hy.
    destruct (decide (mid <= i)); [eapply Hs5; [| | |exact Hx|exact Hy]; lia|].
    eapply le_trans; [|eapply Hmin5; [|exact Hy]; lia].
    rewrite (shuffled_outside mid b d4 d5) in Hx by (done || lia).
    destruct (decide (i = a)) as [->|]; [simplify_eq; apply le_refl|].
    apply nR_le. eapply Hf4; [|exact Hx]. lia.
  - (* partition, then the two sides *)
    clear Hequal.
    destruct (partition_func_spec a b pivot2 d3 p)
      as (mid & flag & d4 & -> & Hsh4 & Hmid & Hpm & Ht4 & Hf4); [lia|lia|done|].
    simpl. pose proof (shuffled_length _ _ _ _ Hsh4) as Hlen4.
    assert (left_guard a mid d4) as Hgl4.
    { eapply left_guard_mono; [|eapply shuffled_left_guard; [exact Hsh4| | |exact Hguard3]]; lia. }
    assert (left_guard (mid + 1) b d4) as Hgr4.
    { intros e _ He. replace (mid + 1 - 1) with mid in He by lia. by simplify_eq. }
    assert (range_all (fun x => le x p) a mid d4) as Hlp4.
    { intros i x Hi Hx. apply R_le. eapply Ht4; eauto. }
    assert (range_all (fun x => le p x) (mid + 1) b d4) as Hpr4.
    { intros i x Hi Hx. apply nR_le. eapply Hf4; eauto. }
    destruct (mid - a <? b - mid).
    + destruct (IH a mid l1 true true d4) as (d5 & -> & Hsh5 & Hs5); [lia|lia|lia|done|].
      simpl. pose proof (shuffled_length _ _ _ _ Hsh5) as Hlen5.
      destruct (IH (mid + 1) b l1 ((b - a) / 8 <=? mid - a) flag d5)
        as (d6 & -> & Hsh6 & Hs6); [lia|lia|lia| |].
      { eapply left_guard_stable; [|exact Hgr4].
        intros k Hk. apply (shuffled_outside a mid d4 d5); [done|lia]. }
      exists d6. split; [done|]. split.
      { eapply shuffled_trans; [exact Hsh3|]. eapply shuffled_trans; [exact Hsh4|].
        eapply shuffled_trans; [eapply shuffled_mono; [| |exact Hsh5]; lia|].
        eapply shuffled_mono; [| |exact Hsh6]; lia. }
      eapply (range_sorted_join a mid b d6 p).
      * rewrite (shuffled_outside (mid + 1) b d5 d6) by (done || lia).
        rewrite (shuffled_outside a mid d4 d5) by (done || lia). done.
      * eapply shuffled_range_sorted_outside; [exact Hsh6| |exact Hs5]. lia.
      * done.
      * eapply range_all_stable;
          [intros k Hk; apply (shuffled_outside (mid + 1) b d5 d6); [done|lia]|].
        eapply shuffled_range_all; [exact Hsh5|done].
      * eapply shuffled_range_all; [exact Hsh6|].
        eapply range_all_stable;
          [intros k Hk; apply (shuffled_outside a mid d4 d5); [done|lia]|done].
    + destruct (IH (mid + 1) b l1 true true d4) as (d5 & -> & Hsh5 & Hs5);
        [lia|lia|lia|done|].
      simpl. pose proof (shuffled_length _ _ _ _ Hsh5) as Hlen5.
      destruct (IH a mid l1 ((b - a) / 8 <=? b - mid) flag d5)
        as (d6 & -> & Hsh6 & Hs6); [lia|lia|lia| |].
      { eapply left_guard_stable; [|exact Hgl4].
        intros k Hk. apply (shuffled_outside (mid + 1) b d4 d5); [done|lia]. }
      exists d6. split; [done|]. split.
      { eapply shuffled_trans; [exact Hsh3|]. eapply shuffled_trans; [exact Hsh4|].
        eapply shuffled_trans; [eapply shuffled_mono; [| |exact Hsh5]; lia|].
        eapply shuffled_mono; [| |exact Hsh6]; lia. }
      eapply (range_sorted_join a mid b d6 p).
      * rewrite (shuffled_outside a mid d5 d6) by (done || lia).
        rewrite (shuffled_outside (mid + 1) b d4 d5) by (done || lia). done.
      * done.
      * eapply shuffled_range_sorted_outside; [exact Hsh6| |exact Hs5]. lia.
      * eapply shuffled_range_all; [exact Hsh6|].
        eapply range_all_stable;
          [intros k Hk; apply (shuffled_outside (mid + 1) b d4 d5); [done|lia]|done].
      * eapply range_all_stable;
          [intros k Hk; apply (shuffled_outside a mid d5 d6); [done|lia]|].
        eapply shuffled_range_all; [exact Hsh5|done].
Qed.


(** ** sort.Slice *)

Lemma range_sorted_StronglySorted (l : list A) :
  range_sorted 0 (length l) l -> StronglySorted le l.
Proof.
  induction l as [|x l IH]; intros Hs; constructor.
  - apply IH. intros i j y z Hi Hij Hj Hy Hz.
    apply (Hs (S i) (S j)); simpl in *; try done; lia.
  - apply Forall_forall. intros y Hy.
    apply list_elem_of_lookup in Hy as [j Hj].
    pose proof (lookup_lt_Some _ _ _ Hj).
    apply (Hs 0 (S j)); simpl; try done; lia.
Qed.

(** Whatever the length of the slice, [sort.Slice] returns, and what it
    leaves is an arrangement of the elements in the order [le]. *)
Lemma Slice_sorts (x : list A) :
  exists x', Slice Less x = Some x' /\ x' ≡ₚ x /\ StronglySorted le x'.
Proof.
  unfold Slice.
  destruct (pdqsort_func_spec (S (length x)) 0 (length x) (bits_Len (length x))
              true true x) as (x' & Hs & Hsh & Hsorted); [lia|lia|lia| |].
  { intros e Ha. lia. }
  exists x'. split; [done|]. split; [by eapply shuffled_Permutation|].
  apply range_sorted_StronglySorted.
  by rewrite (shuffled_length _ _ _ _ Hsh).
Qed.

End Sorting.

(** * [sort.Slice] under a closure that compares the indices

    [less = func(i, j int) bool { return i < j }] makes every test the
    sort runs say "in order": no element is moved. *)

Section SliceByIndex.

Local Open Scope nat_scope.

Local Arguments loop : simpl never.
Local Arguments for_each : simpl never.
Local Arguments Nat.leb : simpl never.
Local Arguments Nat.ltb : simpl never.
Local Arguments Nat.eqb : simpl never.
Local Arguments Nat.div : simpl never.
Local Arguments Nat.sub : simpl never.
Local Arguments Nat.add : simpl never.
Local Arguments Nat.mul : simpl never.

Context `{GoStd} {A : Type}.

Variable Less : list A -> nat -> nat -> option bool.

Hypothesis Less_index : forall data i j, Less data i j = Some (i <? j).

Lemma for_each_unchanged {St : Type} (counter : list nat)
    (body : nat -> St -> option St) (s : St) :
  (forall i, body i s = Some s) -> for_each counter body s = Some s.
Proof.
  intros Hb. induction counter as [|i counter IH]; [done|].
  unfold for_each; fold (@for_each St). rewrite Hb. exact IH.
Qed.

Lemma insertionSort_func_index (a b : nat) (data : list A) :
  insertionSort_func Less a b data = Some data.
Proof.
  unfold insertionSort_func. apply for_each_unchanged. intros i.
  unfold loop. destruct (a <? i) eqn:Hai; [|done].
  apply Nat.ltb_lt in Hai. rewrite Less_index.
  assert ((i <? i - 1) = false) as -> by (apply Nat.ltb_ge; lia). done.
Qed.

Lemma order2_func_index (data : list A) (a b swaps : nat) :
  a <= b -> order2_func Less data a b swaps = Some (a, b, swaps).
Proof.
  intros Hab. unfold order2_func. rewrite Less_index.
  assert ((b <? a) = false) as -> by (apply Nat.ltb_ge; lia). done.
Qed.

Lemma median_func_index (data : list A) (a b c swaps : nat) :
  a <= b -> b <= c -> median_func Less data a b c swaps = Some (b, swaps).
Proof.
  intros Hab Hbc. unfold median_func.
  rewrite order2_func_index by done. simpl.
  rewrite order2_func_index by done. simpl.
  rewrite order2_func_index by done. done.
Qed.

Lemma choosePivot_func_index (a b : nat) (data : list A) :
  exists pivot, choosePivot_func Less a b data = Some (pivot, increasingHint).
Proof.
  unfold choosePivot_func. unfold medianAdjacent_func.
  destruct (8 <=? b - a); [|simpl; eauto].
  destruct (50 <=? b - a).
  - rewrite !median_func_index by lia. simpl.
    rewrite !median_func_index by lia. simpl.
    rewrite !median_func_index by lia. simpl.
    rewrite !median_func_index by lia. simpl. eauto.
  - simpl. rewrite !median_func_index by lia. simpl. eauto.
Qed.

Lemma scan_ordered_index (data : list A) (b i : nat) :
  i <= b -> b <= length data -> scan_ordered Less data b i = Some b.
Proof.
  intros Hib Hb. unfold scan_ordered.
  destruct (loop_spec (fun i1 => i <= i1 <= b) (fun i' => i' = b) (fun i1 => b - i1)
    (fun i =>
       if i <? b then
         lt ← Less data i (i - 1);
         Some (if lt : bool then Break i else Continue (i + 1))
       else Some (Break i))) with (fuel := S (length data)) (s := i)
    as (i' & Hl & ->); [|lia|lia|done].
  intros i1 Hi1. destruct (i1 <? b) eqn:Hlt.
  - apply Nat.ltb_lt in Hlt. rewrite Less_index.
    destruct (i1 <? i1 - 1) eqn:Hc; [apply Nat.ltb_lt in Hc; lia|].
    simpl. eexists; split; [done|]. simpl. lia.
  - apply Nat.ltb_ge in Hlt. eexists; split; [done|]. simpl. lia.
Qed.

Lemma partialInsertionSort_func_index (a b : nat) (data : list A) :
  a < b -> b <= length data ->
  partialInsertionSort_func Less a b data = Some (true, data).
Proof.
  intros Hab Hb. unfold partialInsertionSort_func. unfold loop.
  assert ((0 <? 5) = true) as -> by done.
  rewrite scan_ordered_index by lia. simpl.
  by rewrite Nat.eqb_refl.
Qed.

Lemma bits_Len_pos (n : nat) : 0 < n -> bits_Len n <> 0.
Proof. destruct n; [lia|]. done. Qed.

Lemma Slice_index (x : list A) : Slice Less x = Some x.
Proof.
  unfold Slice, pdqsort_func.
  destruct (length x - 0 <=? 12) eqn:H12; [apply insertionSort_func_index|].
  apply Nat.leb_gt in H12.
  destruct (bits_Len (length x) =? 0) eqn:Hl.
  { apply Nat.eqb_eq in Hl. by apply bits_Len_pos in Hl; [|lia]. }
  simpl.
  destruct (choosePivot_func_index 0 (length x) x) as [pivot ->]. simpl.
  rewrite partialInsertionSort_func_index by lia. done.
Qed.

End SliceByIndex.

(** * The listing *)

Section Listing.

Context `{UUIDLib} `{TimeLib} `{GoStd}.

Lemma ListAllRockets_less_default (sortBy sortOrder : string)
    (rockets : list State) (i j : nat) :
  ~ sortable (strings.ToLower sortBy) ->
  ListAllRockets_less sortBy sortOrder rockets i j = Some (i <? j)%nat.
Proof.
  intros Hns. unfold ListAllRockets_less, sortable in *.
  repeat case_decide; try done; exfalso; apply Hns; tauto.
Qed.

(** C8: for a non-empty sort field that, in lower case, is none of id,
    type, speed, mission, lastupdatetime, [ListAllRockets] returns the
    snapshot in the order the store gave it, and does not panic. *)
Theorem ListAllRockets_unknown_field
    (rockets : list State) (sortBy sortOrder : string) :
  sortBy <> "" ->
  ~ sortable (strings.ToLower sortBy) ->
  ListAllRockets_from rockets sortBy sortOrder = Ok rockets.
Proof.
  intros Hne Hns. unfold ListAllRockets_from.
  case_decide; [done|].
  rewrite Slice_index; [done|].
  intros data i j. by apply ListAllRockets_less_default.
Qed.

Lemma ToLower_empty : strings.ToLower "" = "".
Proof. done. Qed.

Lemma ListAllRockets_less_speed (sortBy sortOrder : string)
    (rockets : list State) (i j : nat) :
  strings.ToLower sortBy = "speed" ->
  ListAllRockets_less sortBy sortOrder rockets i j
  = Less_by (speed_less sortOrder) rockets i j.
Proof.
  intros Hkey. unfold ListAllRockets_less, Less_by, speed_less. rewrite Hkey.
  destruct (decide ("speed" = "id")) as [Hc|_]; [discriminate Hc|].
  destruct (decide ("speed" = "type")) as [Hc|_]; [discriminate Hc|].
  destruct (decide ("speed" = "speed")) as [_|Hc]; [|done].
  destruct (rockets !! i); simpl; [|done].
  destruct (rockets !! j); simpl; [|done].
  case_decide; done.
Qed.

Lemma Slice_speed_desc (sortBy sortOrder : string) (rockets : list State) :
  strings.ToLower sortBy = "speed" ->
  strings.ToLower sortOrder = "desc" ->
  exists sorted,
    Slice (ListAllRockets_less sortBy sortOrder) rockets = Some sorted
    /\ sorted ≡ₚ rockets /\ StronglySorted by_speed_desc sorted.
Proof.
  intros Hkey Hdesc.
  assert (forall x y, speed_less sortOrder x y
                      = negb (CurrentSpeed x <? CurrentSpeed y)) as Hless
    by (intros x y; unfold speed_less; by case_decide).
  apply (Slice_sorts (speed_less sortOrder) by_speed_desc); unfold by_speed_desc.
  - intros x y. rewrite Hless. intros Hr. apply negb_true_iff, Z.ltb_ge in Hr. done.
  - intros x y. rewrite Hless. intros Hr. apply negb_false_iff, Z.ltb_lt in Hr. lia.
  - intros x y z. lia.
  - intros x y z. rewrite !Hless. intros Hxy Hyz.
    apply negb_true_iff, Z.ltb_ge in Hxy. apply negb_true_iff, Z.ltb_ge in Hyz.
    apply negb_true_iff, Z.ltb_ge. lia.
  - intros x z y. rewrite !Hless. intros Hxz Hzx.
    apply negb_false_iff, Z.ltb_lt in Hxz. apply negb_false_iff, Z.ltb_lt in Hzx. lia.
  - intros data i j. by apply ListAllRockets_less_speed.
Qed.

Lemma Slice_speed_asc (sortBy sortOrder : string) (rockets : list State) :
  strings.ToLower sortBy = "speed" ->
  strings.ToLower sortOrder <> "desc" ->
  exists sorted,
    Slice (ListAllRockets_less sortBy sortOrder) rockets = Some sorted
    /\ sorted ≡ₚ rockets /\ StronglySorted by_speed_asc sorted.
Proof.
  intros Hkey Hasc.
  assert (forall x y, speed_less sortOrder x y
                      = (CurrentSpeed x <? CurrentSpeed y)) as Hless
    by (intros x y; unfold speed_less; by case_decide).
  apply (Slice_sorts (speed_less sortOrder) by_speed_asc); unfold by_speed_asc.
  - intros x y. rewrite Hless. intros Hr. apply Z.ltb_lt in Hr. lia.
  - intros x y. rewrite Hless. intros Hr. apply Z.ltb_ge in Hr. done.
  - intros x y z. lia.
  - intros x y z. rewrite !Hless. intros Hxy Hyz.
    apply Z.ltb_lt in Hxy. apply Z.ltb_lt in Hyz. apply Z.ltb_lt. lia.
  - intros x z y. rewrite !Hless. intros Hxz Hzx.
    apply Z.ltb_ge in Hxz. apply Z.ltb_ge in Hzx.
    replace (CurrentSpeed z) with (CurrentSpeed x) by lia. done.
  - intros data i j. by apply ListAllRockets_less_speed.
Qed.

(** C7: with the sort field speed (in any case), [ListAllRockets] returns
    an arrangement of the snapshot; under the order desc (in any case)
    the speeds never increase along it, so that three entities with
    speeds 100, 200 and 300 come back as 300, 200, 100; under any other
    order, the empty one included, the speeds never decrease. *)
Theorem ListAllRockets_by_speed
    (rockets : list State) (sortBy sortOrder : string) :
  strings.ToLower sortBy = "speed" ->
  exists sorted,
    ListAllRockets_from rockets sortBy sortOrder = Ok sorted
    /\ sorted ≡ₚ rockets
    /\ (strings.ToLower sortOrder = "desc" ->
        StronglySorted by_speed_desc sorted
        /\ forall r1 r2 r3,
             CurrentSpeed r1 = 100 -> CurrentSpeed r2 = 200 ->
             CurrentSpeed r3 = 300 -> rockets ≡ₚ [r1; r2; r3] ->
             sorted = [r3; r2; r1])
    /\ (strings.ToLower sortOrder <> "desc" ->
        StronglySorted by_speed_asc sorted).
Proof.
  intros Hkey. unfold ListAllRockets_from.
  case_decide as Hempty; [subst; by rewrite ToLower_empty in Hkey|].
  destruct (decide (strings.ToLower sortOrder = "desc")) as [Hdesc|Hasc].
  - destruct (Slice_speed_desc sortBy sortOrder rockets Hkey Hdesc)
      as (sorted & -> & Hperm & Hsorted).
    exists sorted. split; [done|]. split; [done|]. split; [|done].
    intros _. split; [done|].
    intros r1 r2 r3 Hs1 Hs2 Hs3 Hr.
    apply (StronglySorted_unique_strong by_speed_desc).
    + intros x1 x2 Hx1 Hx2. rewrite Hperm, Hr in Hx1. unfold by_speed_desc.
      set_unfold. intros Hle1 Hle2.
      destruct Hx1 as [-> | [-> | [-> | []]]], Hx2 as [-> | [-> | [-> | []]]];
        try done; lia.
    + done.
    + unfold by_speed_desc. repeat constructor; lia.
    + rewrite Hperm, Hr. rewrite (Permutation_swap r2 r1 [r3]).
      by rewrite <- (Permutation_cons_append [r2; r1] r3).
  - destruct (Slice_speed_asc sortBy sortOrder rockets Hkey Hasc)
      as (sorted & -> & Hperm & Hsorted).
    exists sorted. split; [done|]. split; [done|]. split; [done|]. done.
Qed.

End Listing.

(** * Instances of the engine's theorems *)

Section EngineInstances.

Local Existing Instance exampleUUID.
Local Existing Instance exampleTime.

Lemma ProcessMessage_stale_dropped_witness :
  rockets (exWorld (exState 7 1000 5))
    !! Channel (Metadata (exMessage 7 3 "RocketSpeedIncreased" (exAmount 500)))
  = Some (exState 7 1000 5)
  /\ MessageNumber (Metadata (exMessage 7 3 "RocketSpeedIncreased" (exAmount 500)))
     <= LastProcessedMessageNumber (exState 7 1000 5)
  /\ ProcessMessage (exMessage 7 3 "RocketSpeedIncreased" (exAmount 500))
       (exWorld (exState 7 1000 5))
     = (Ok None, exWorld (exState 7 1000 5)).
Proof.
  assert (rockets (exWorld (exState 7 1000 5))
            !! Channel (Metadata (exMessage 7 3 "RocketSpeedIncreased" (exAmount 500)))
          = Some (exState 7 1000 5)) as Hl by reflexivity.
  assert (MessageNumber (Metadata (exMessage 7 3 "RocketSpeedIncreased" (exAmount 500)))
          <= LastProcessedMessageNumber (exState 7 1000 5)) as Hle by (simpl; lia).
  split; [exact Hl|]. split; [exact Hle|].
  exact (ProcessMessage_stale_dropped _ _ _ Hl Hle).
Defined.

Lemma exWorld_wf (st : State) :
  store_wf (rockets (exWorld st)).
Proof.
  intros id st' Hl. unfold exWorld in Hl. simpl in Hl.
  apply lookup_singleton_Some in Hl as [<- <-]. done.
Qed.

Lemma lastSequence_monotonic_max_witness :
  store_wf (rockets exWorld0)
  /\ Forall (fun msg => Channel (Metadata msg) = 7%N) exRun
  /\ Forall (fun msg => payload_ok msg = true) exRun
  /\ not_dropped exWorld0 exRun <> []
  /\ lastSequence 7%N (default exWorld0 (last (trace exWorld0 exRun)))
     = max_list_Z (not_dropped exWorld0 exRun).
Proof.
  assert (store_wf (rockets exWorld0)) as Hwf by apply store_wf_empty.
  assert (Forall (fun msg => Channel (Metadata msg) = 7%N) exRun) as Hch
    by (repeat constructor).
  assert (Forall (fun msg => payload_ok msg = true) exRun) as Hok
    by (repeat constructor).
  assert (not_dropped exWorld0 exRun <> []) as Hne by (vm_compute; discriminate).
  repeat (split; [assumption|]).
  exact (proj2 (lastSequence_monotonic_max 7%N exWorld0 exRun Hwf Hch) Hok Hne).
Defined.

Lemma ProcessMessage_launch_witness :
  rockets exWorld0 !! 7%N = None
  /\ ProcessMessage
       (mkTelemetryMessage
          (mkMessageMetadata 7%N 1 60 MessageTypeLaunched)
          (mkMessage None (Some 1000) (Some "ARTEMIS") None None (Some "Falcon-9")))
       exWorld0
     = (Ok None,
        mkWorld (<[7%N := mkState 7%N "Falcon-9" 1000 "ARTEMIS" "LAUNCHED" None 60 1]>
                   (rockets exWorld0))
                (saved exWorld0
                 ++ [mkState 7%N "Falcon-9" 1000 "ARTEMIS" "LAUNCHED" None 60 1])).
Proof.
  assert (rockets exWorld0 !! 7%N = None) as Hn by reflexivity.
  split; [exact Hn|].
  exact (ProcessMessage_launch 7%N 60 exWorld0 Hn).
Defined.

Lemma ProcessMessage_exploded_witness :
  exists s',
    ProcessMessage (exMessage 7 6 "RocketExploded" (exReason "fuel leak"))
      (exWorld (exState 7 1300 5))
    = (Ok None,
       mkWorld (<[ID (exState 7 1300 5) := s']> (rockets (exWorld (exState 7 1300 5))))
               (saved (exWorld (exState 7 1300 5)) ++ [s']))
    /\ CurrentSpeed s' = 0 /\ Status_ s' = StatusExploded
    /\ Reason s' = Some "fuel leak".
Proof.
  apply (ProcessMessage_exploded
           (exMessage 7 6 "RocketExploded" (exReason "fuel leak"))
           (exWorld (exState 7 1300 5)) (exState 7 1300 5));
    [reflexivity|simpl; lia|reflexivity|reflexivity].
Defined.

Lemma ProcessMessage_speed_arithmetic_witness :
  exists s',
    rockets (after (exMessage 7 3 "RocketSpeedDecreased" (exAmount 200))
               (after (exMessage 7 2 "RocketSpeedIncreased" (exAmount 500))
                  (exWorld (exState 7 1000 1)))) !! 7%N = Some s'
    /\ CurrentSpeed s' = 1300 /\ LastProcessedMessageNumber s' = 3.
Proof.
  apply (proj1 (@ProcessMessage_speed_arithmetic exampleUUID exampleTime)
           7%N (exWorld (exState 7 1000 1)) (exState 7 1000 1)
           (exMessage 7 2 "RocketSpeedIncreased" (exAmount 500))
           (exMessage 7 3 "RocketSpeedDecreased" (exAmount 200)));
    first [apply exWorld_wf | reflexivity | simpl; lia].
Defined.

Lemma ProcessMessage_idempotent_witness :
  store_wf (rockets (exWorld (exState 7 1000 1)))
  /\ after (exMessage 7 2 "RocketSpeedIncreased" (exAmount 500))
       (after (exMessage 7 2 "RocketSpeedIncreased" (exAmount 500))
          (exWorld (exState 7 1000 1)))
     = after (exMessage 7 2 "RocketSpeedIncreased" (exAmount 500))
         (exWorld (exState 7 1000 1)).
Proof.
  split; [apply exWorld_wf|].
  apply (ProcessMessage_idempotent
           (exMessage 7 2 "RocketSpeedIncreased" (exAmount 500))
           (exWorld (exState 7 1000 1))).
  apply exWorld_wf.
Defined.

Lemma ProcessMessage_first_event_witness :
  rockets exWorld0 !! Channel (Metadata (exMessage 7 (-4) "RocketSpeedIncreased" (exAmount 500)))
  = None
  /\ payload_ok (exMessage 7 (-4) "RocketSpeedIncreased" (exAmount 500)) = true
  /\ dropped (exMessage 7 (-4) "RocketSpeedIncreased" (exAmount 500)) exWorld0 = false
  /\ exists s',
       ProcessMessage (exMessage 7 (-4) "RocketSpeedIncreased" (exAmount 500)) exWorld0
       = (Ok None,
          mkWorld (<[Channel (Metadata (exMessage 7 (-4) "RocketSpeedIncreased" (exAmount 500)))
                     := s']> (rockets exWorld0))
                  (saved exWorld0 ++ [s']))
       /\ ID s' = Channel (Metadata (exMessage 7 (-4) "RocketSpeedIncreased" (exAmount 500)))
       /\ LastProcessedMessageNumber s'
          = MessageNumber (Metadata (exMessage 7 (-4) "RocketSpeedIncreased" (exAmount 500))).
Proof.
  split; [reflexivity|]. split; [reflexivity|].
  apply (ProcessMessage_first_event
           (exMessage 7 (-4) "RocketSpeedIncreased" (exAmount 500)) exWorld0);
    reflexivity.
Defined.

Lemma ProcessMessage_unrecognized_kind_witness :
  unrecognized (MessageType_ (Metadata (exMessage 7 6 "RocketLanded" exEmpty)))
  /\ dropped (exMessage 7 6 "RocketLanded" exEmpty) (exWorld (exState 7 1300 5)) = false
  /\ exists s',
       ProcessMessage (exMessage 7 6 "RocketLanded" exEmpty) (exWorld (exState 7 1300 5))
       = (Ok None,
          mkWorld (<[ID s' := s']> (rockets (exWorld (exState 7 1300 5))))
                  (saved (exWorld (exState 7 1300 5)) ++ [s']))
       /\ LastProcessedMessageNumber s' = 6
       /\ LastUpdateTime s' = 60
       /\ CurrentSpeed s' = 1300.
Proof.
  assert (unrecognized (MessageType_ (Metadata (exMessage 7 6 "RocketLanded" exEmpty))))
    as Hu by (repeat split; discriminate).
  assert (dropped (exMessage 7 6 "RocketLanded" exEmpty) (exWorld (exState 7 1300 5)) = false)
    as Hd by reflexivity.
  split; [exact Hu|]. split; [exact Hd|].
  destruct (ProcessMessage_unrecognized_kind _ _ Hu Hd) as (s' & Hpm & Hseq & Ht & Hrest).
  exists s'. split; [exact Hpm|]. split; [exact Hseq|]. split; [exact Ht|].
  exact (proj1 (proj2 (proj2 Hrest))).
Defined.

End EngineInstances.

(** * Instances of the listing's theorems *)

Section ListingInstances.

Local Existing Instance exampleUUID.
Local Existing Instance exampleTime.
Local Existing Instance exampleGoStd.

Lemma ListAllRockets_unknown_field_witness :
  "altitude" <> ""
  /\ ~ sortable (strings.ToLower "altitude")
  /\ ListAllRockets_from [exState 1 300 3; exState 2 100 1; exState 3 200 2]
       "altitude" "desc"
     = Ok [exState 1 300 3; exState 2 100 1; exState 3 200 2].
Proof.
  assert ("altitude" <> "") as Hne by discriminate.
  assert (~ sortable (strings.ToLower "altitude")) as Hns.
  { unfold sortable. vm_compute. intros [Hc|[Hc|[Hc|[Hc|Hc]]]]; discriminate Hc. }
  split; [exact Hne|]. split; [exact Hns|].
  exact (ListAllRockets_unknown_field _ _ _ Hne Hns).
Defined.

(** The listing of the integration test: speeds 300, 100, 200 saved in
    that order, listed by "speed", "desc". *)
Example ListAllRockets_speed_desc_test :
  ListAllRockets_from [exState 1 300 3; exState 2 100 1; exState 3 200 2]
    "speed" "desc"
  = Ok [exState 1 300 3; exState 3 200 2; exState 2 100 1].
Proof. vm_compute. reflexivity. Qed.

Lemma ListAllRockets_by_speed_witness :
  strings.ToLower "Speed" = "speed"
  /\ exists sorted,
       ListAllRockets_from [exState 1 300 3; exState 2 100 1; exState 3 200 2]
         "Speed" "DESC" = Ok sorted
       /\ sorted ≡ₚ [exState 1 300 3; exState 2 100 1; exState 3 200 2]
       /\ (strings.ToLower "DESC" = "desc" ->
           StronglySorted by_speed_desc sorted
           /\ forall r1 r2 r3,
                CurrentSpeed r1 = 100 -> CurrentSpeed r2 = 200 ->
                CurrentSpeed r3 = 300 ->
                [exState 1 300 3; exState 2 100 1; exState 3 200 2] ≡ₚ [r1; r2; r3] ->
                sorted = [r3; r2; r1])
       /\ (strings.ToLower "DESC" <> "desc" -> StronglySorted by_speed_asc sorted).
Proof.
  assert (strings.ToLower "Speed" = "speed") as Hkey by reflexivity.
  split; [exact Hkey|].
  exact (ListAllRockets_by_speed
           [exState 1 300 3; exState 2 100 1; exState 3 200 2] "Speed" "DESC" Hkey).
Defined.

End ListingInstances.
